(** * LayerHierarchy: the layer graph of the SurfaceFlinger front end

    A shallow embedding of
    [services/surfaceflinger/FrontEnd/LayerHierarchy.h] and of the injection
    outcome constants of
    [services/inputflinger/dispatcher/include/InputDispatcherInterface.h].

    Conventions.
    - A [uint32_t] layer id is a [Z]; ids are only compared and stored, never
      computed with, so no wrap-around occurs.
    - A [LayerHierarchy*] is a key ([nat]) into a heap of nodes
      ([gmap nat LayerHierarchy.t]); [nullptr] is [None].
    - [ftl::SmallVector] and [std::vector] are lists, back at the right end. *)

From stdpp Require Import base option list sorting gmap.
From Stdlib Require Import ZArith Lia.

(** ** Data model *)

(** [LayerHierarchy::Variant] *)
Inductive Variant : Set :=
  | Attached
  | Detached
  | Relative
  | Mirror.

#[global] Instance Variant_eq_dec : EqDecision Variant.
Proof. solve_decision. Defined.

(** [LayerHierarchy::TraversalPath] *)
Module TraversalPath.
Record t : Set := mk {
  id : Z;
  variant : Variant;
  mirrorRootIds : list Z;
  relativeRootIds : list Z;
  invalidRelativeRootId : Z
}.
End TraversalPath.

(** [operator==] of [ftl::SmallVector<uint32_t, N>]: same length and the same
    elements, position by position. *)
Fixpoint SmallVector_eqb (a b : list Z) : bool :=
  match a, b with
  | [], [] => true
  | x :: a', y :: b' => (x =? y)%Z && SmallVector_eqb a' b'
  | _, _ => false
  end.

(** [TraversalPath::operator==] *)
Definition TraversalPath_eqb (a b : TraversalPath.t) : bool :=
  (TraversalPath.id a =? TraversalPath.id b)%Z
  && SmallVector_eqb (TraversalPath.mirrorRootIds a) (TraversalPath.mirrorRootIds b).

(** [TraversalPath::isRelative] *)
Definition isRelative (p : TraversalPath.t) : bool :=
  match TraversalPath.relativeRootIds p with
  | [] => false
  | _ :: _ => true
  end.

(** The record a node refers to ([RequestedLayerState], declared in
    [RequestedLayerState.h]); of its fields the hierarchy reads the layer id
    and the declared z value. *)
Module RequestedLayerState.
Record t : Set := mk {
  id : Z;
  z : Z
}.
End RequestedLayerState.

(** [LayerHierarchy]: the node of the graph.  [mChildren] holds the outgoing
    edges in insertion order; [mParent] and [mRelativeParent] are the two
    back-references, each a single nullable pointer. *)
Module LayerHierarchy.
Record t : Set := mk {
  mLayer : option RequestedLayerState.t;
  mChildren : list (nat * Variant);
  mParent : option nat;
  mRelativeParent : option nat
}.
End LayerHierarchy.

(** [LayerHierarchy::LayerHierarchy(RequestedLayerState* layer)]: the node
    refers to [layer]; the default member initialisers of the header leave the
    child list empty and both back-references null. *)
Definition new_LayerHierarchy (layer : option RequestedLayerState.t) : LayerHierarchy.t :=
  LayerHierarchy.mk layer [] None None.

(** Constants used to report the outcome of input event injection
    ([INPUT_EVENT_INJECTION_*]). *)
Inductive InputEventInjection : Set :=
  | INPUT_EVENT_INJECTION_PENDING
  | INPUT_EVENT_INJECTION_SUCCEEDED
  | INPUT_EVENT_INJECTION_PERMISSION_DENIED
  | INPUT_EVENT_INJECTION_FAILED
  | INPUT_EVENT_INJECTION_TIMED_OUT.

(** The enumerator values of the header. *)
Definition InputEventInjection_value (r : InputEventInjection) : Z :=
  match r with
  | INPUT_EVENT_INJECTION_PENDING => -1
  | INPUT_EVENT_INJECTION_SUCCEEDED => 0
  | INPUT_EVENT_INJECTION_PERMISSION_DENIED => 1
  | INPUT_EVENT_INJECTION_FAILED => 2
  | INPUT_EVENT_INJECTION_TIMED_OUT => 3
  end%Z.

(** The outcome of running a walk with a bounded recursion depth: it ran to
    completion, it dereferenced a pointer that is null or dangling, or the
    depth allowance was used up before it completed. *)
Inductive Walk (A : Type) : Type :=
  | Finished (a : A)
  | Fault
  | OutOfFuel.
Arguments Finished {A} a.
Arguments Fault {A}.
Arguments OutOfFuel {A}.

(** [LayerHierarchy::Visitor]: a callable that sees the node (its address and
    its contents) and the path by which it was reached, may update the state
    [S] it captured, and returns false to stop descending. *)
Definition Visitor (S : Type) : Type :=
  nat -> LayerHierarchy.t -> TraversalPath.t -> S -> bool * S.

(** [child->mLayer->id], read through two pointers. *)
Definition childLayer (g : gmap nat LayerHierarchy.t) (c : nat) : option RequestedLayerState.t :=
  n ← g !! c; LayerHierarchy.mLayer n.

Definition childId (g : gmap nat LayerHierarchy.t) (c : nat) : Walk Z :=
  match childLayer g c with
  | Some l => Finished (RequestedLayerState.id l)
  | None => Fault
  end.

(** The z value the comparator of the sort reads for an edge; an edge whose
    target has no record compares as 0. *)
Definition childZ (g : gmap nat LayerHierarchy.t) (e : nat * Variant) : Z :=
  match childLayer g (fst e) with
  | Some l => RequestedLayerState.z l
  | None => 0%Z
  end.

(** A route: a chain of edges of the graph from one node to another. *)
Inductive Route (g : gmap nat LayerHierarchy.t) : nat -> list (nat * Variant) -> nat -> Prop :=
  | Route_here h : Route g h [] h
  | Route_edge h node c v es t :
      g !! h = Some node ->
      (c, v) ∈ LayerHierarchy.mChildren node ->
      Route g c es t ->
      Route g h ((c, v) :: es) t.

(** The id [i] lies on a relative-parent cycle: from a node whose layer has
    the id [i] a chain of edges that ends with a Relative edge leads to a node
    whose layer has the id [i] again. *)
Definition onRelativeCycle (g : gmap nat LayerHierarchy.t) (i : Z) : Prop :=
  exists c c' l l' es,
    childLayer g c = Some l /\ childLayer g c' = Some l' /\
    RequestedLayerState.id l = i /\ RequestedLayerState.id l' = i /\
    Route g c (es ++ [(c', Relative)]) c'.

(** The ids of all records the graph refers to. *)
Definition allIds (g : gmap nat LayerHierarchy.t) : list Z :=
  omap (fun kn => RequestedLayerState.id <$> LayerHierarchy.mLayer (snd kn)) (map_to_list g).

Section Hierarchy.

(** [UNASSIGNED_LAYER_ID] is declared in [FrontEnd/LayerCreationArgs.h]; the
    hierarchy only compares against it. *)
Variable UNASSIGNED_LAYER_ID : Z.

(** [TraversalPath::hasRelZLoop] *)
Definition TraversalPath_hasRelZLoop (p : TraversalPath.t) : bool :=
  negb (TraversalPath.invalidRelativeRootId p =? UNASSIGNED_LAYER_ID)%Z.

(** Modelled from the spec: the initialiser of the static
    [TraversalPath::ROOT_TRAVERSAL_ID], which the header only declares; it is
    the path of a walk that has not entered any edge, with both stacks empty
    and no duplicate relative root. *)
Definition ROOT_TRAVERSAL_ID : TraversalPath.t :=
  TraversalPath.mk UNASSIGNED_LAYER_ID Attached [] [] UNASSIGNED_LAYER_ID.

(** [ScopedAddToTraversalPath]: what the scope keeps to undo its push, the
    parent id and the parent variant; the reference [mTraversalPath] is the
    path that push and pop are applied to. *)
Record ScopedAddToTraversalPath : Set := mkScope {
  mParentId : Z;
  mParentVariant : Variant
}.

(** [std::find(v.begin(), v.end(), x) != v.end()] *)
Definition contains (v : list Z) (x : Z) : bool :=
  existsb (fun y => (y =? x)%Z) v.

(** Modelled from the spec: the constructor of [ScopedAddToTraversalPath],
    whose body is not in the header.  The new id and kind become the head of
    the path; a Mirror edge pushes the id on the mirror-root stack; a Relative
    edge first sets the duplicate marker if the id is already on the
    relative-root stack and then pushes the id in either case. *)
Definition ScopedAddToTraversalPath_push
    (p : TraversalPath.t) (layerId : Z) (variantArg : Variant)
    : ScopedAddToTraversalPath * TraversalPath.t :=
  (mkScope (TraversalPath.id p) (TraversalPath.variant p),
   TraversalPath.mk layerId variantArg
     (match variantArg with
      | Mirror => TraversalPath.mirrorRootIds p ++ [layerId]
      | _ => TraversalPath.mirrorRootIds p
      end)
     (match variantArg with
      | Relative => TraversalPath.relativeRootIds p ++ [layerId]
      | _ => TraversalPath.relativeRootIds p
      end)
     (match variantArg with
      | Relative =>
          if contains (TraversalPath.relativeRootIds p) layerId
          then layerId
          else TraversalPath.invalidRelativeRootId p
      | _ => TraversalPath.invalidRelativeRootId p
      end)).

(** Modelled from the spec: the destructor of [ScopedAddToTraversalPath],
    whose body is not in the header.  It restores the saved id and kind and
    takes off the stack entry that the kind at the head of the path put
    there, so that both stacks are back at their pre-push length; the scope
    saves nothing else, and the duplicate marker stays as the path has it. *)
Definition ScopedAddToTraversalPath_pop
    (scope : ScopedAddToTraversalPath) (p : TraversalPath.t) : TraversalPath.t :=
  TraversalPath.mk (mParentId scope) (mParentVariant scope)
    (match TraversalPath.variant p with
     | Mirror => removelast (TraversalPath.mirrorRootIds p)
     | _ => TraversalPath.mirrorRootIds p
     end)
    (match TraversalPath.variant p with
     | Relative => removelast (TraversalPath.relativeRootIds p)
     | _ => TraversalPath.relativeRootIds p
     end)
    (TraversalPath.invalidRelativeRootId p).

(** The part of a path that a scope saves or can recompute: the id, the
    kind and the two stacks, everything but the duplicate marker. *)
Definition sameFrame (p q : TraversalPath.t) : Prop :=
  TraversalPath.id p = TraversalPath.id q /\
  TraversalPath.variant p = TraversalPath.variant q /\
  TraversalPath.mirrorRootIds p = TraversalPath.mirrorRootIds q /\
  TraversalPath.relativeRootIds p = TraversalPath.relativeRootIds q.

(** The path [p] with the duplicate marker [m]. *)
Definition withMarker (m : Z) (p : TraversalPath.t) : TraversalPath.t :=
  TraversalPath.mk (TraversalPath.id p) (TraversalPath.variant p)
    (TraversalPath.mirrorRootIds p) (TraversalPath.relativeRootIds p) m.

(** Modelled from the spec: [LayerHierarchy::sortChildrenByZOrder], whose body
    is not in the header: a stable sort of [mChildren] on the declared z value
    of each child's record, here by insertion; an edge goes in front of the
    first edge whose z is not smaller, so equal z values keep their order. *)
Fixpoint insertByZ (g : gmap nat LayerHierarchy.t) (e : nat * Variant)
    (sorted : list (nat * Variant)) : list (nat * Variant) :=
  match sorted with
  | [] => [e]
  | e' :: rest =>
      if (childZ g e <=? childZ g e')%Z
      then e :: e' :: rest
      else e' :: insertByZ g e rest
  end.

(** Modelled from the spec: the stable sort as a whole: the edges are
    inserted one by one, the last first, so that an edge ends up in front of
    the later edges with the same z. *)
Definition sortByZ (g : gmap nat LayerHierarchy.t) (children : list (nat * Variant))
    : list (nat * Variant) :=
  foldr (insertByZ g) [] children.

Section Traversal.

Variable g : gmap nat LayerHierarchy.t.
Context {St : Type}.
Variable visitor : Visitor St.

(** Modelled from the spec: the loop over [mChildren] in the bodies of
    [traverse] and [traverseInZOrder], which are not in the header: each edge
    that [enters] accepts is pushed on the path, the child is walked by
    [descend], and the push is undone when the scope ends. *)
Fixpoint forEachChild
    (enters : Variant -> bool)
    (descend : nat -> TraversalPath.t -> St -> Walk (TraversalPath.t * St))
    (children : list (nat * Variant)) (path : TraversalPath.t) (s : St)
    : Walk (TraversalPath.t * St) :=
  match children with
  | [] => Finished (path, s)
  | (child, childVariant) :: rest =>
      if enters childVariant then
        match childId g child with
        | Finished childLayerId =>
            let '(scope, pushed) :=
              ScopedAddToTraversalPath_push path childLayerId childVariant in
            match descend child pushed s with
            | Finished (after, s') =>
                forEachChild enters descend rest
                  (ScopedAddToTraversalPath_pop scope after) s'
            | Fault => Fault
            | OutOfFuel => OutOfFuel
            end
        | Fault => Fault
        | OutOfFuel => OutOfFuel
        end
      else forEachChild enters descend rest path s
  end.

(** Modelled from the spec: the depth-first walk that the bodies of
    [traverse] and [traverseInZOrder], which are not in the header, share:
    the visitor sees the node and the path; when it returns false the node's
    subtree is left out; otherwise the children are taken in the order
    [order] puts them in, and those that [enters] accepts are walked.
    [fuel] bounds the depth of the recursion: the C++ recursion has no such
    bound, so a walk that is [OutOfFuel] for every [fuel] is one that does
    not return. *)
Fixpoint walk (enters : Variant -> bool)
    (order : list (nat * Variant) -> list (nat * Variant)) (fuel : nat)
    (h : nat) (path : TraversalPath.t) (s : St) : Walk (TraversalPath.t * St) :=
  match fuel with
  | O => OutOfFuel
  | S fuel' =>
      match g !! h with
      | None => Fault
      | Some node =>
          let '(continue, s') := visitor h node path s in
          if continue
          then forEachChild enters (walk enters order fuel')
                 (order (LayerHierarchy.mChildren node)) path s'
          else Finished (path, s')
      end
  end.

(** Modelled from the spec: [LayerHierarchy::traverse(visitor, parent)], whose
    body is not in the header: the walk that enters every child whatever the
    kind of its edge, in the order in which [mChildren] holds them. *)
Definition traverse : nat -> nat -> TraversalPath.t -> St -> Walk (TraversalPath.t * St) :=
  walk (fun _ => true) (fun children => children).

(** Modelled from the spec: [LayerHierarchy::traverseInZOrder(visitor,
    parent)], whose body is not in the header: the same walk, except that
    the children are visited in ascending order of their declared z, equal
    values in the order of [mChildren], and that Detached children are
    skipped.  The method is const: it orders the children it reads and
    leaves [mChildren] as it is. *)
Definition traverseInZOrder : nat -> nat -> TraversalPath.t -> St -> Walk (TraversalPath.t * St) :=
  walk (fun v => negb (bool_decide (v = Detached))) (sortByZ g).

End Traversal.

(** [traverse(visitor)] and [traverseInZOrder(visitor)], the public entry
    points: both start from [ROOT_TRAVERSAL_ID]. *)
Definition traverse_from_root {St : Type} (g : gmap nat LayerHierarchy.t)
    (visitor : Visitor St) (fuel h : nat) (s : St) : Walk (TraversalPath.t * St) :=
  traverse g visitor fuel h ROOT_TRAVERSAL_ID s.

Definition traverseInZOrder_from_root {St : Type} (g : gmap nat LayerHierarchy.t)
    (visitor : Visitor St) (fuel h : nat) (s : St) : Walk (TraversalPath.t * St) :=
  traverseInZOrder g visitor fuel h ROOT_TRAVERSAL_ID s.

(** Modelled from the spec: [LayerHierarchy::hasRelZLoop(outInvalidRelativeRoot)],
    whose body is not in the header: a [traverse] whose visitor does not
    descend from a path with a duplicate relative root and stores the first
    such root it meets in the out-parameter; the result is true when one was
    stored.  The pair is the returned boolean and the final value of the
    out-parameter. *)
Definition relZLoopVisitor : Visitor Z :=
  fun _ _ path out =>
    if TraversalPath_hasRelZLoop path
    then (false,
          if (out =? UNASSIGNED_LAYER_ID)%Z
          then TraversalPath.invalidRelativeRootId path
          else out)
    else (true, out).

(** Modelled from the spec: [LayerHierarchy::hasRelZLoop] itself, the walk
    from [ROOT_TRAVERSAL_ID] with the visitor above and the out-parameter
    starting as [UNASSIGNED_LAYER_ID]. *)
Definition hasRelZLoop (g : gmap nat LayerHierarchy.t) (fuel : nat) (h : nat)
    : Walk (bool * Z) :=
  match traverse_from_root g relZLoopVisitor fuel h UNASSIGNED_LAYER_ID with
  | Finished (_, out) => Finished (negb (out =? UNASSIGNED_LAYER_ID)%Z, out)
  | Fault => Fault
  | OutOfFuel => OutOfFuel
  end.

(** Modelled from the spec: [sortChildrenByZOrder] as an update of the node
    at [h] in the heap; the other nodes and the other fields of the node are
    untouched. *)
Definition sortChildrenByZOrder (g : gmap nat LayerHierarchy.t) (h : nat)
    : gmap nat LayerHierarchy.t :=
  match g !! h with
  | Some node =>
      <[h := LayerHierarchy.mk (LayerHierarchy.mLayer node)
               (sortByZ g (LayerHierarchy.mChildren node))
               (LayerHierarchy.mParent node)
               (LayerHierarchy.mRelativeParent node)]> g
  | None => g
  end.

(** ** Well-formed graphs and routes *)

(** Every edge of the graph leads to a node that has a record, and no record
    carries the id reserved for "no layer". *)
Definition closed (g : gmap nat LayerHierarchy.t) : Prop :=
  forall h node c v,
    g !! h = Some node -> (c, v) ∈ LayerHierarchy.mChildren node ->
    exists l, childLayer g c = Some l /\ RequestedLayerState.id l <> UNASSIGNED_LAYER_ID.

(** The edges that are not Relative (structural and mirror edges) go down:
    [rank] decreases along each of them and never exceeds [bound]. *)
Definition ranked (g : gmap nat LayerHierarchy.t) (rank : nat -> nat) (bound : nat) : Prop :=
  (forall h, rank h <= bound) /\
  forall h node c v,
    g !! h = Some node -> (c, v) ∈ LayerHierarchy.mChildren node ->
    v <> Relative -> rank c < rank h.

(** No edge of the graph leads back up: [rank] decreases along every edge,
    the Relative ones included. *)
Definition acyclic (g : gmap nat LayerHierarchy.t) (rank : nat -> nat) : Prop :=
  forall h node c v,
    g !! h = Some node -> (c, v) ∈ LayerHierarchy.mChildren node -> rank c < rank h.

(** The visitor refuses to descend from a path that carries a duplicate
    relative root. *)
Definition prunesLoops {St : Type} (visitor : Visitor St) : Prop :=
  forall h node path s,
    TraversalPath_hasRelZLoop path = true -> fst (visitor h node path s) = false.

(** What a path built from the root by pushing edges of [g] satisfies: its
    relative roots are ids of the graph, and they are pairwise distinct as
    long as no duplicate has been flagged. *)
Definition pathOk (g : gmap nat LayerHierarchy.t) (p : TraversalPath.t) : Prop :=
  (forall x, x ∈ TraversalPath.relativeRootIds p -> x ∈ allIds g) /\
  (TraversalPath_hasRelZLoop p = false -> NoDup (TraversalPath.relativeRootIds p)).

End Hierarchy.

(** The allowance that suffices at node [h] reached by path [p]: one round of
    structural descent for every relative root that can still be pushed. *)
Definition allowance (g : gmap nat LayerHierarchy.t) (rank : nat -> nat) (bound : nat)
    (h : nat) (p : TraversalPath.t) : nat :=
  (length (allIds g) - length (TraversalPath.relativeRootIds p)) * (bound + 1)
  + rank h + 2.

(** The path after entering the edges of a route one after the other. *)
Fixpoint pushAlong (g : gmap nat LayerHierarchy.t) (p : TraversalPath.t)
    (es : list (nat * Variant)) : TraversalPath.t :=
  match es with
  | [] => p
  | (c, v) :: es' =>
      match childLayer g c with
      | Some l =>
          pushAlong g (snd (ScopedAddToTraversalPath_push p (RequestedLayerState.id l) v)) es'
      | None => p
      end
  end.

(** What one visit adds to the count of visits of [b] by kind [v]. *)
Definition startsAt (b : nat) (v : Variant) (h : nat) (p : TraversalPath.t) : nat :=
  length (filter (fun e => e = (b, v)) [(h, TraversalPath.variant p)]).

(** ** Checking a concrete graph *)

(** [check] holds of every edge of the graph. *)
Definition edgesForall (g : gmap nat LayerHierarchy.t) (check : nat -> nat -> Variant -> bool)
    : bool :=
  forallb (fun kn => forallb (fun e => check (fst kn) (fst e) (snd e))
                             (LayerHierarchy.mChildren (snd kn)))
          (map_to_list g).

(** [check] holds of every node of the graph. *)
Definition nodesForall (g : gmap nat LayerHierarchy.t)
    (check : nat -> LayerHierarchy.t -> bool) : bool :=
  forallb (fun kn => check (fst kn) (snd kn)) (map_to_list g).

(** The edges into [b] are one Detached edge from [P] and one Relative edge
    from [R]. *)
Definition incomingEdgesCheck (b P R : nat) (x : nat) (node : LayerHierarchy.t) : bool :=
  forallb
    (fun v =>
       length (filter (fun e => e = (b, v)) (LayerHierarchy.mChildren node))
       =? (if decide (x = P /\ v = Detached) then 1 else 0)
          + (if decide (x = R /\ v = Relative) then 1 else 0))
    [Attached; Detached; Relative; Mirror].

(** The edges [traverseInZOrder] enters: all but the Detached ones. *)
Definition visible (e : nat * Variant) : Prop := snd e <> Detached.

#[global] Instance visible_dec (e : nat * Variant) : Decision (visible e).
Proof. unfold visible. apply _. Defined.

(** ** Sample graphs *)

(** A value for [UNASSIGNED_LAYER_ID]: the largest [uint32_t]. *)
Definition sampleUnassigned : Z := 4294967295.

(** Root 0 with the structural children 1 (id 10) and 2 (id 20), which are
    relative children of each other. *)
Definition cycleGraph : gmap nat LayerHierarchy.t :=
  list_to_map
    [ (0, LayerHierarchy.mk None [(1, Detached); (2, Detached)] None None);
      (1, LayerHierarchy.mk (Some (RequestedLayerState.mk 10 0)) [(2, Relative)]
            (Some 0) (Some 2));
      (2, LayerHierarchy.mk (Some (RequestedLayerState.mk 20 0)) [(1, Relative)]
            (Some 0) (Some 1)) ]%nat.

(** Root 0 with the children 1 (id 10, z 3), 2 (id 20, z 1) and 3 (id 30,
    z 2); node 4 (id 40, z 0) is a structural child of 1 and a relative child
    of 2. *)
Definition relativeGraph : gmap nat LayerHierarchy.t :=
  list_to_map
    [ (0, LayerHierarchy.mk None [(1, Attached); (2, Attached); (3, Attached)] None None);
      (1, LayerHierarchy.mk (Some (RequestedLayerState.mk 10 3)) [(4, Detached)]
            (Some 0) None);
      (2, LayerHierarchy.mk (Some (RequestedLayerState.mk 20 1)) [(4, Relative)]
            (Some 0) None);
      (3, LayerHierarchy.mk (Some (RequestedLayerState.mk 30 2)) [] (Some 0) None);
      (4, LayerHierarchy.mk (Some (RequestedLayerState.mk 40 0)) [] (Some 1) (Some 2)) ]%nat.


(** Root 0 with the children 1 (z 1), 2 (z 0), 3 (z 1, a relative child) and
    4 (z 0), inserted in this order, and the detached child 5 (z 0). *)
Definition tieGraph : gmap nat LayerHierarchy.t :=
  list_to_map
    [ (0, LayerHierarchy.mk None
            [(1, Attached); (5, Detached); (2, Attached); (3, Relative); (4, Attached)]
            None None);
      (1, LayerHierarchy.mk (Some (RequestedLayerState.mk 10 1)) [] (Some 0) None);
      (2, LayerHierarchy.mk (Some (RequestedLayerState.mk 20 0)) [] (Some 0) None);
      (3, LayerHierarchy.mk (Some (RequestedLayerState.mk 30 1)) [] (Some 6) (Some 0));
      (4, LayerHierarchy.mk (Some (RequestedLayerState.mk 40 0)) [] (Some 0) None);
      (5, LayerHierarchy.mk (Some (RequestedLayerState.mk 50 0)) [] (Some 0) (Some 6)) ]%nat.

Definition sampleRank (h : nat) : nat :=
  match h with
  | 0 => 2
  | 1 | 2 | 3 => 1
  | _ => 0
  end.

(** ** Counting visits *)

(** A visitor that never prunes and records, for each visit, the node and the
    kind of the edge by which it was reached. *)
Definition keyLogVisitor : Visitor (list (nat * Variant)) :=
  fun h _ path log => (true, log ++ [(h, TraversalPath.variant path)]).

(** The number of visits of node [b] in a log, and of those reached by an
    edge of kind [v]. *)
Definition visitsOf (b : nat) (log : list (nat * Variant)) : nat :=
  length (filter (fun e => fst e = b) log).

Definition visitsAs (b : nat) (v : Variant) (log : list (nat * Variant)) : nat :=
  length (filter (fun e => e = (b, v)) log).

(** The number of edges of kind [v] from node [x] to node [b]. *)
Definition edgeCount (g : gmap nat LayerHierarchy.t) (x b : nat) (v : Variant) : nat :=
  match g !! x with
  | Some node => length (filter (fun e => e = (b, v)) (LayerHierarchy.mChildren node))
  | None => 0
  end.

(** The number of times a walk that enters the edges accepted by [enters]
    goes from the nodes recorded in [log] to [b] along an edge of kind [v]. *)
Definition descents (g : gmap nat LayerHierarchy.t) (enters : Variant -> bool)
    (b : nat) (v : Variant) (log : list (nat * Variant)) : nat :=
  if enters v then sum_list_with (fun e => edgeCount g (fst e) b v) log else 0.

(** Root 0 with the children 1 (id 10), 2 (id 20) and, detached, 3 (id 30);
    3 is a relative child of 2; node 4 (id 40) is a structural child of 1 and
    a relative child of 3. *)
Definition nestedGraph : gmap nat LayerHierarchy.t :=
  list_to_map
    [ (0, LayerHierarchy.mk None [(1, Attached); (2, Attached); (3, Detached)] None None);
      (1, LayerHierarchy.mk (Some (RequestedLayerState.mk 10 0)) [(4, Detached)]
            (Some 0) None);
      (2, LayerHierarchy.mk (Some (RequestedLayerState.mk 20 0)) [(3, Relative)]
            (Some 0) None);
      (3, LayerHierarchy.mk (Some (RequestedLayerState.mk 30 0)) [(4, Relative)]
            (Some 0) (Some 2));
      (4, LayerHierarchy.mk (Some (RequestedLayerState.mk 40 0)) [] (Some 1) (Some 3)) ]%nat.


(** ** Further notions for the walks *)

(** No two nodes of the graph refer to records with the same id (no node is
    a copy of another). *)
Definition uniqueIds (g : gmap nat LayerHierarchy.t) : Prop :=
  forall c c' l l',
    childLayer g c = Some l -> childLayer g c' = Some l' ->
    RequestedLayerState.id l = RequestedLayerState.id l' -> c = c'.

(** A visitor that records every visit, node and path, and whose answer is
    given by [descends], a function of the node and the path. *)
Definition recordVisitor (descends : nat -> TraversalPath.t -> bool)
    : Visitor (list (nat * TraversalPath.t)) :=
  fun h _ path log => (descends h path, log ++ [(h, path)]).

(** The ids that the edges of kind [v] among [es] lead to, in order. *)
Definition edgeIds (g : gmap nat LayerHierarchy.t) (v : Variant)
    (es : list (nat * Variant)) : list Z :=
  omap (fun e => if decide (snd e = v)
                 then RequestedLayerState.id <$> childLayer g (fst e)
                 else None) es.

(** Root 0 with the relative child 1 (id 10), under which hangs, again as a
    relative child, node 2, a second node for the record with id 10. *)
Definition copyGraph : gmap nat LayerHierarchy.t :=
  list_to_map
    [ (0, LayerHierarchy.mk None [(1, Relative)] None None);
      (1, LayerHierarchy.mk (Some (RequestedLayerState.mk 10 0)) [(2, Relative)]
            None (Some 0));
      (2, LayerHierarchy.mk (Some (RequestedLayerState.mk 10 0)) [] None (Some 1)) ]%nat.


(** ** Nodes reached in one way only *)

(** The kinds of edge [traverseInZOrder] enters. *)
Definition visibleKind (v : Variant) : bool := negb (bool_decide (v = Detached)).




(** * Properties *)

Section Properties.

Variable UNASSIGNED_LAYER_ID : Z.

Local Abbreviation hasLoop := (TraversalPath_hasRelZLoop UNASSIGNED_LAYER_ID).

(** ** Path equality *)

Lemma SmallVector_eqb_eq (a b : list Z) : SmallVector_eqb a b = true <-> a = b.
Proof.
  revert b. induction a as [|x a IH]; intros [|y b]; simpl; try (split; congruence).
  rewrite andb_true_iff, Z.eqb_eq, IH. split.
  - intros [-> ->]. reflexivity.
  - intros [= -> ->]. split; reflexivity.
Qed.

(** C8. Two traversal paths compare equal exactly when their node ids and
    their mirror-root stacks are equal; the variant, the relative-root stack
    and the duplicate-relative-root marker play no part: replacing them on
    either side leaves the result of the comparison unchanged. *)
Theorem TraversalPath_eqb_spec :
  (forall a b : TraversalPath.t,
      TraversalPath_eqb a b = true <->
      TraversalPath.id a = TraversalPath.id b /\
      TraversalPath.mirrorRootIds a = TraversalPath.mirrorRootIds b) /\
  (forall i j ms ns v v' rs rs' d d' w w' qs qs' e e',
      TraversalPath_eqb (TraversalPath.mk i v ms rs d) (TraversalPath.mk j v' ns rs' d') =
      TraversalPath_eqb (TraversalPath.mk i w ms qs e) (TraversalPath.mk j w' ns qs' e')).
Proof.
  split.
  - intros a b. unfold TraversalPath_eqb.
    rewrite andb_true_iff, Z.eqb_eq, SmallVector_eqb_eq. reflexivity.
  - reflexivity.
Qed.

(** ** Scoped push and pop *)

Lemma sameFrame_refl (p : TraversalPath.t) : sameFrame p p.
Proof. by repeat split. Qed.


Lemma withMarker_same (p : TraversalPath.t) :
  withMarker (TraversalPath.invalidRelativeRootId p) p = p.
Proof. by destruct p. Qed.

Lemma withMarker_withMarker (m m' : Z) (p : TraversalPath.t) :
  withMarker m (withMarker m' p) = withMarker m p.
Proof. reflexivity. Qed.

(** The pop of a scope gives back the id, the kind and the two stacks of the
    path before the push; the marker is that of the path at the pop. *)
Lemma pop_push (p after : TraversalPath.t) (layerId : Z) (v : Variant) :
  sameFrame after (snd (ScopedAddToTraversalPath_push p layerId v)) ->
  ScopedAddToTraversalPath_pop (fst (ScopedAddToTraversalPath_push p layerId v)) after
  = withMarker (TraversalPath.invalidRelativeRootId after) p.
Proof.
  intros (_ & Hv & Hm & Hr). unfold ScopedAddToTraversalPath_pop, withMarker.
  cbn [fst snd ScopedAddToTraversalPath_push mParentId mParentVariant
       TraversalPath.variant TraversalPath.mirrorRootIds
       TraversalPath.relativeRootIds] in *.
  rewrite Hv, Hm, Hr.
  destruct v; rewrite ?removelast_last; reflexivity.
Qed.

Section WalkFacts.

Variable g : gmap nat LayerHierarchy.t.
Context {St : Type}.
Variable visitor : Visitor St.
Variable enters : Variant -> bool.
Variable order : list (nat * Variant) -> list (nat * Variant).

Lemma walk_S fuel h p s :
  walk g visitor enters order (S fuel) h p s
  = match g !! h with
    | None => Fault
    | Some node =>
        let '(continue, s') := visitor h node p s in
        if continue
        then forEachChild g enters (walk g visitor enters order fuel)
               (order (LayerHierarchy.mChildren node)) p s'
        else Finished (p, s')
    end.
Proof. reflexivity. Qed.

(** The child loop returns the path it was given, up to the marker, as soon
    as every descent does. *)
Lemma forEachChild_frame
    (descend : nat -> TraversalPath.t -> St -> Walk (TraversalPath.t * St)) :
  (forall c q s q' s', descend c q s = Finished (q', s') -> sameFrame q' q) ->
  forall children p s p' s',
    forEachChild g enters descend children p s = Finished (p', s') -> sameFrame p' p.
Proof.
  intros Hd children.
  induction children as [|[c v] rest IH]; intros p s p' s' H;
    cbn [forEachChild] in H.
  - injection H as <- <-. apply sameFrame_refl.
  - destruct (enters v); [|eauto].
    destruct (childId g c) as [i| |]; try discriminate.
    pose proof (pop_push p) as Hpp. specialize (Hpp) with (layerId := i) (v := v).
    destruct (ScopedAddToTraversalPath_push p i v) as [scope pushed].
    cbn [fst snd] in Hpp.
    destruct (descend c pushed s) as [[after s1]| |] eqn:E; try discriminate.
    apply Hd in E. rewrite (Hpp after E) in H. apply IH in H.
    destruct H as (? & ? & ? & ?). by repeat split.
Qed.

Lemma walk_frame fuel :
  forall h p s p' s',
    walk g visitor enters order fuel h p s = Finished (p', s') -> sameFrame p' p.
Proof.
  induction fuel as [|fuel IH]; intros h p s p' s' H; [discriminate|].
  rewrite walk_S in H.
  destruct (g !! h) as [node|]; [|discriminate].
  destruct (visitor h node p s) as [[|] s1].
  - eapply forEachChild_frame; eauto.
  - injection H as <- <-. apply sameFrame_refl.
Qed.

End WalkFacts.

(** ** The z-order sort *)

Section SortByZ.

Variable g : gmap nat LayerHierarchy.t.

Local Abbreviation zLe := (fun e e' : nat * Variant => (childZ g e <= childZ g e')%Z).

Lemma insertByZ_Permutation e l : insertByZ g e l ≡ₚ e :: l.
Proof.
  induction l as [|e' l IH]; simpl; [done|].
  destruct (childZ g e <=? childZ g e')%Z; [done|].
  rewrite IH. apply Permutation_swap.
Qed.

Lemma sortByZ_Permutation l : sortByZ g l ≡ₚ l.
Proof.
  induction l as [|e l IH]; simpl; [done|].
  unfold sortByZ in *. simpl. by rewrite insertByZ_Permutation, IH.
Qed.

Lemma insertByZ_sorted e l :
  StronglySorted zLe l -> StronglySorted zLe (insertByZ g e l).
Proof.
  induction l as [|e' l IH]; intros Hs; simpl.
  - repeat constructor.
  - destruct (childZ g e <=? childZ g e')%Z eqn:E.
    + apply Z.leb_le in E. apply StronglySorted_cons in Hs as Hs'.
      destruct Hs' as [Hall _]. constructor; [exact Hs|].
      constructor; [exact E|].
      eapply Forall_impl; [exact Hall|]. simpl. intros. lia.
    + apply Z.leb_gt in E. apply StronglySorted_cons in Hs as [Hall Hs].
      constructor; [by apply IH|].
      rewrite insertByZ_Permutation. constructor; [lia|exact Hall].
Qed.

Lemma sortByZ_sorted l : StronglySorted zLe (sortByZ g l).
Proof.
  induction l as [|e l IH]; [constructor|].
  unfold sortByZ in *. simpl. by apply insertByZ_sorted.
Qed.

(** Edges with the same z keep the order they had. *)
Lemma insertByZ_same_z k e l :
  filter (fun x => childZ g x = k) (insertByZ g e l)
  = filter (fun x => childZ g x = k) (e :: l).
Proof.
  induction l as [|e' l IH]; simpl; [done|].
  destruct (childZ g e <=? childZ g e')%Z eqn:E; [done|].
  apply Z.leb_gt in E.
  rewrite (filter_cons _ e'), IH, !(filter_cons _ e), (filter_cons _ e').
  repeat destruct (decide _); try done; lia.
Qed.

Lemma sortByZ_stable k l :
  filter (fun x => childZ g x = k) (sortByZ g l) = filter (fun x => childZ g x = k) l.
Proof.
  induction l as [|e l IH]; [done|].
  unfold sortByZ in *. simpl. rewrite insertByZ_same_z, !(filter_cons _ e), IH. done.
Qed.

Lemma insertByZ_front e l :
  Forall (zLe e) l -> insertByZ g e l = e :: l.
Proof.
  destruct l as [|e' l]; [done|]. intros H. apply Forall_cons in H as [H _].
  simpl. apply Z.leb_le in H. by rewrite H.
Qed.

(** Taking a kind of edge out commutes with the sort: the edges that remain
    are in the order the sort gives them on their own. *)
Lemma insertByZ_filter (P : nat * Variant -> Prop) `{!forall x, Decision (P x)} e l :
  StronglySorted zLe l ->
  filter P (insertByZ g e l)
  = if decide (P e) then insertByZ g e (filter P l) else filter P l.
Proof.
  induction l as [|e' l IH]; intros Hs; simpl.
  - rewrite filter_cons, filter_nil. by destruct (decide (P e)).
  - apply StronglySorted_cons in Hs as [Hall Hs].
    destruct (childZ g e <=? childZ g e')%Z eqn:E.
    + apply Z.leb_le in E. rewrite (filter_cons _ e).
      destruct (decide (P e)); [|done].
      symmetry. apply insertByZ_front.
      assert (Forall (zLe e) (e' :: l)) as Hfront.
      { constructor; [exact E|]. eapply Forall_impl; [exact Hall|]. simpl. intros. lia. }
      apply Forall_forall. intros x Hx. apply list_elem_of_filter in Hx as [_ Hx].
      by apply (proj1 (Forall_forall _ _) Hfront).
    + rewrite (filter_cons _ e'), (IH Hs), (filter_cons _ e').
      destruct (decide (P e)), (decide (P e')); try done.
      simpl. by rewrite E.
Qed.

Lemma sortByZ_filter (P : nat * Variant -> Prop) `{!forall x, Decision (P x)} l :
  filter P (sortByZ g l) = sortByZ g (filter P l).
Proof.
  induction l as [|e l IH]; [done|].
  unfold sortByZ in *. simpl.
  rewrite insertByZ_filter by apply sortByZ_sorted.
  rewrite (filter_cons _ e). destruct (decide (P e)); [|exact IH].
  simpl. by rewrite IH.
Qed.

End SortByZ.
Section FuelFacts.

Variable g : gmap nat LayerHierarchy.t.
Context {St : Type}.
Variable visitor : Visitor St.
Variable enters : Variant -> bool.
Variable order : list (nat * Variant) -> list (nat * Variant).

Lemma forEachChild_descend_mono
    (d1 d2 : nat -> TraversalPath.t -> St -> Walk (TraversalPath.t * St)) :
  (forall c q s r, d1 c q s = Finished r -> d2 c q s = Finished r) ->
  forall children p s r,
    forEachChild g enters d1 children p s = Finished r ->
    forEachChild g enters d2 children p s = Finished r.
Proof.
  intros Hd children.
  induction children as [|[c v] rest IH]; intros p s r H;
    cbn [forEachChild] in *; [exact H|].
  destruct (enters v); [|eauto].
  destruct (childId g c) as [i| |]; try discriminate.
  destruct (ScopedAddToTraversalPath_push p i v) as [scope pushed].
  destruct (d1 c pushed s) as [[after s1]| |] eqn:E; try discriminate.
  rewrite (Hd _ _ _ _ E). eauto.
Qed.

(** A walk that finished does so with any larger allowance, with the same
    result. *)
Lemma walk_more_fuel fuel :
  forall fuel' h p s r,
    walk g visitor enters order fuel h p s = Finished r ->
    fuel <= fuel' ->
    walk g visitor enters order fuel' h p s = Finished r.
Proof.
  induction fuel as [|fuel IH]; intros fuel' h p s r H Hle; [discriminate|].
  destruct fuel' as [|fuel']; [lia|].
  rewrite !walk_S in *.
  destruct (g !! h) as [node|]; [|discriminate].
  destruct (visitor h node p s) as [[|] s1]; [|exact H].
  eapply forEachChild_descend_mono; [|exact H].
  intros c q s0 r0 H0. apply IH; [exact H0|lia].
Qed.

End FuelFacts.


(** ** Paths built by pushes *)

Lemma contains_elem (v : list Z) (x : Z) : contains v x = true <-> x ∈ v.
Proof.
  unfold contains. rewrite existsb_exists. split.
  - intros [y [Hy E]]. apply Z.eqb_eq in E. subst y. by apply list_elem_of_In.
  - intros H. exists x. split; [by apply list_elem_of_In | apply Z.eqb_refl].
Qed.

Lemma contains_not_elem (v : list Z) (x : Z) : contains v x = false <-> x ∉ v.
Proof.
  rewrite <- contains_elem. destruct (contains v x); split; congruence.
Qed.

Lemma childLayer_allIds (g : gmap nat LayerHierarchy.t) c l :
  childLayer g c = Some l -> RequestedLayerState.id l ∈ allIds g.
Proof.
  unfold childLayer, allIds. intros H.
  destruct (g !! c) as [node|] eqn:E; [|discriminate]. simpl in H.
  apply list_elem_of_omap. exists (c, node). split.
  - by apply elem_of_map_to_list.
  - simpl. by rewrite H.
Qed.

Lemma childId_Finished (g : gmap nat LayerHierarchy.t) c l :
  childLayer g c = Some l -> childId g c = Finished (RequestedLayerState.id l).
Proof. unfold childId. by intros ->. Qed.

Lemma hasLoop_false (p : TraversalPath.t) :
  hasLoop p = false <-> TraversalPath.invalidRelativeRootId p = UNASSIGNED_LAYER_ID.
Proof.
  unfold TraversalPath_hasRelZLoop. rewrite negb_false_iff. apply Z.eqb_eq.
Qed.

Lemma hasLoop_true (p : TraversalPath.t) :
  hasLoop p = true <-> TraversalPath.invalidRelativeRootId p <> UNASSIGNED_LAYER_ID.
Proof.
  unfold TraversalPath_hasRelZLoop. rewrite negb_true_iff. apply Z.eqb_neq.
Qed.

Lemma pathOk_root (g : gmap nat LayerHierarchy.t) :
  pathOk UNASSIGNED_LAYER_ID g (ROOT_TRAVERSAL_ID UNASSIGNED_LAYER_ID).
Proof.
  split; simpl.
  - intros x Hx. by apply elem_of_nil in Hx.
  - intros _. constructor.
Qed.

Lemma pathOk_push (g : gmap nat LayerHierarchy.t) p i v :
  pathOk UNASSIGNED_LAYER_ID g p -> i ∈ allIds g -> i <> UNASSIGNED_LAYER_ID ->
  pathOk UNASSIGNED_LAYER_ID g (snd (ScopedAddToTraversalPath_push p i v)).
Proof.
  intros [Hin Hnd] Hi Hne. split.
  - simpl. destruct v; try exact Hin.
    intros x Hx. apply elem_of_app in Hx as [Hx|Hx]; [by apply Hin|].
    apply list_elem_of_singleton in Hx. by subst x.
  - rewrite hasLoop_false. simpl.
    destruct v; try (intros E; apply Hnd; by apply hasLoop_false).
    destruct (contains (TraversalPath.relativeRootIds p) i) eqn:C; [congruence|].
    intros E. apply NoDup_app. split; [|split].
    + apply Hnd. by apply hasLoop_false.
    + intros x Hx Hx'. apply list_elem_of_singleton in Hx'. subst x.
      by apply contains_not_elem in C.
    + apply NoDup_singleton.
Qed.

(** The relative-root stack of an unflagged path is no longer than the list
    of ids of the graph. *)
Lemma pathOk_length (g : gmap nat LayerHierarchy.t) p :
  pathOk UNASSIGNED_LAYER_ID g p -> hasLoop p = false ->
  length (TraversalPath.relativeRootIds p) <= length (allIds g).
Proof.
  intros [Hin Hnd] H. apply submseteq_length, NoDup_submseteq; auto.
Qed.


Lemma pathOk_withMarker (g : gmap nat LayerHierarchy.t) p m :
  pathOk UNASSIGNED_LAYER_ID g p -> hasLoop p = false ->
  pathOk UNASSIGNED_LAYER_ID g (withMarker m p).
Proof. intros [Hin Hnd] Hu. split; [exact Hin|]. intros _. by apply Hnd. Qed.

(** ** Termination *)

Section Termination.

Variable g : gmap nat LayerHierarchy.t.
Context {St : Type}.
Variable visitor : Visitor St.
Variable enters : Variant -> bool.
Variable order : list (nat * Variant) -> list (nat * Variant).
Variable rank : nat -> nat.
Variable bound : nat.
Hypothesis Horder : forall children, order children ≡ₚ children.
Hypothesis Hclosed : closed UNASSIGNED_LAYER_ID g.
Hypothesis Hranked : ranked g rank bound.
Hypothesis Hprunes : prunesLoops UNASSIGNED_LAYER_ID visitor.

Lemma allowance_ge_2 h p : 2 <= allowance g rank bound h p.
Proof. unfold allowance. apply Nat.le_add_l. Qed.

Lemma allowance_child h node c v l p :
  g !! h = Some node -> (c, v) ∈ LayerHierarchy.mChildren node ->
  childLayer g c = Some l ->
  let q := snd (ScopedAddToTraversalPath_push p (RequestedLayerState.id l) v) in
  pathOk UNASSIGNED_LAYER_ID g q -> hasLoop q = false ->
  allowance g rank bound c q < allowance g rank bound h p.
Proof.
  intros Hh Hc Hl q Hq Hqu. unfold allowance.
  destruct Hranked as [Hb Hr].
  pose proof (Hb c) as Hbc.
  destruct (decide (v = Relative)) as [->|Hv].
  - pose proof (pathOk_length g q Hq Hqu) as Hlen.
    subst q. cbn [snd ScopedAddToTraversalPath_push TraversalPath.relativeRootIds] in *.
    rewrite length_app in *. cbn [length] in *.
    replace (length (allIds g) - length (TraversalPath.relativeRootIds p))
      with (S (length (allIds g) - (length (TraversalPath.relativeRootIds p) + 1)))
      by lia.
    rewrite Nat.mul_succ_l.
    generalize ((length (allIds g) - (length (TraversalPath.relativeRootIds p) + 1))
                * (bound + 1)).
    intros k. lia.
  - pose proof (Hr h node c v Hh Hc Hv) as Hlt.
    assert (TraversalPath.relativeRootIds q = TraversalPath.relativeRootIds p) as ->
      by (subst q; simpl; by destruct v).
    generalize ((length (allIds g) - length (TraversalPath.relativeRootIds p))
                * (bound + 1)).
    intros k. lia.
Qed.

Lemma walk_terminates_aux n :
  forall h p s,
    is_Some (g !! h) -> pathOk UNASSIGNED_LAYER_ID g p ->
    (hasLoop p = true /\ 1 <= n) \/ (hasLoop p = false /\ allowance g rank bound h p <= n) ->
    exists p' s', walk g visitor enters order n h p s = Finished (p', s').
Proof.
  induction n as [|n IH]; intros h p s [node Hh] Hp Hn.
  { pose proof (allowance_ge_2 h p). lia. }
  rewrite walk_S, Hh.
  destruct (visitor h node p s) as [b s1] eqn:Ev.
  destruct b; [|eauto].
  assert (hasLoop p = false) as Hu.
  { destruct (hasLoop p) eqn:E; [|done].
    pose proof (Hprunes h node p s E) as F. rewrite Ev in F. discriminate. }
  assert (allowance g rank bound h p <= S n) as Hal by (destruct Hn as [[? _]|[_ ?]]; [congruence|done]).
  clear Hn Ev s.
  assert (forall children, (forall e, e ∈ children -> e ∈ LayerHierarchy.mChildren node) ->
          forall m s, exists p' s',
            forEachChild g enters (walk g visitor enters order n) children
              (withMarker m p) s = Finished (p', s'))
    as Hloop.
  { induction children as [|[c v] rest IHc]; intros Hsub m s; cbn [forEachChild]; [eauto|].
    assert (forall e, e ∈ rest -> e ∈ LayerHierarchy.mChildren node) as Hrest
      by (intros e He; apply Hsub; by right).
    destruct (enters v); [|by apply IHc].
    assert ((c, v) ∈ LayerHierarchy.mChildren node) as Hc by (apply Hsub; by left).
    destruct (Hclosed h node c v Hh Hc) as [l [Hl Hid]].
    rewrite (childId_Finished g c l Hl).
    pose proof (pop_push (withMarker m p)) as Hpp.
    specialize Hpp with (layerId := RequestedLayerState.id l) (v := v).
    pose proof (pathOk_push g (withMarker m p) (RequestedLayerState.id l) v
                  (pathOk_withMarker g p m Hp Hu)
                  (childLayer_allIds g c l Hl) Hid) as Hq.
    pose proof (allowance_child h node c v l (withMarker m p) Hh Hc Hl) as Hlt.
    destruct (ScopedAddToTraversalPath_push (withMarker m p) (RequestedLayerState.id l) v)
      as [scope pushed].
    cbn [fst snd] in *.
    assert (is_Some (g !! c)) as Hsome.
    { unfold childLayer in Hl. destruct (g !! c); [eauto|discriminate]. }
    destruct (IH c pushed s Hsome Hq) as (after & s2 & E).
    { destruct (hasLoop pushed) eqn:Eq.
      - left. split; [done|]. pose proof (allowance_ge_2 h p). lia.
      - right. split; [done|]. specialize (Hlt Hq eq_refl).
        change (allowance g rank bound h (withMarker m p))
          with (allowance g rank bound h p) in Hlt. lia. }
    rewrite E, (Hpp after (walk_frame _ _ _ _ _ _ _ _ _ _ E)), withMarker_withMarker.
    by apply IHc. }
  rewrite <- (withMarker_same p). apply Hloop.
  intros e He. by rewrite <- (Horder (LayerHierarchy.mChildren node)).
Qed.

End Termination.

(** ** Invariants of a walk *)

Section WalkInvariant.

Variable g : gmap nat LayerHierarchy.t.
Context {St : Type}.
Variable visitor : Visitor St.
Variable enters : Variant -> bool.
Variable order : list (nat * Variant) -> list (nat * Variant).
Variable Jp : nat -> TraversalPath.t -> Prop.
Variable Js : St -> Prop.
Hypothesis Horder : forall children, order children ≡ₚ children.
Hypothesis Hvisit :
  forall h node p s, Jp h p -> Js s -> Js (snd (visitor h node p s)).
Hypothesis Hpush :
  forall h node c v l p,
    g !! h = Some node -> (c, v) ∈ LayerHierarchy.mChildren node ->
    childLayer g c = Some l -> Jp h p ->
    Jp c (snd (ScopedAddToTraversalPath_push p (RequestedLayerState.id l) v)).
Hypothesis Hpop :
  forall h c p after,
    Jp h p -> Jp c after ->
    Jp h (withMarker (TraversalPath.invalidRelativeRootId after) p).

Lemma forEachChild_invariant
    (descend : nat -> TraversalPath.t -> St -> Walk (TraversalPath.t * St)) h node :
  g !! h = Some node ->
  (forall c q s q' s', descend c q s = Finished (q', s') -> sameFrame q' q) ->
  (forall c q s q' s', descend c q s = Finished (q', s') -> Jp c q -> Js s ->
                       Js s' /\ Jp c q') ->
  forall children p s p' s',
    (forall e, e ∈ children -> e ∈ LayerHierarchy.mChildren node) ->
    forEachChild g enters descend children p s = Finished (p', s') ->
    Jp h p -> Js s -> Js s' /\ Jp h p'.
Proof.
  intros Hh Hres Hd children.
  induction children as [|[c v] rest IH]; intros p s p' s' Hsub H HJp HJs;
    cbn [forEachChild] in H.
  - injection H as <- <-. auto.
  - assert (forall e, e ∈ rest -> e ∈ LayerHierarchy.mChildren node) as Hrest
      by (intros e He; apply Hsub; by right).
    destruct (enters v); [|eauto].
    unfold childId in H.
    destruct (childLayer g c) as [l|] eqn:El; [|discriminate].
    pose proof (pop_push p) as Hpp.
    specialize Hpp with (layerId := RequestedLayerState.id l) (v := v).
    assert ((c, v) ∈ LayerHierarchy.mChildren node) as Hc by (apply Hsub; by left).
    pose proof (Hpush h node c v l p Hh Hc El HJp) as HJq.
    destruct (ScopedAddToTraversalPath_push p (RequestedLayerState.id l) v)
      as [scope pushed].
    cbn [fst snd] in *.
    destruct (descend c pushed s) as [[after s1]| |] eqn:E; try discriminate.
    rewrite (Hpp after (Hres _ _ _ _ _ E)) in H.
    destruct (Hd _ _ _ _ _ E HJq HJs) as [HJs1 HJafter].
    eapply IH; eauto.
Qed.

Lemma walk_invariant fuel :
  forall h p s p' s',
    walk g visitor enters order fuel h p s = Finished (p', s') ->
    Jp h p -> Js s -> Js s' /\ Jp h p'.
Proof.
  induction fuel as [|fuel IH]; intros h p s p' s' H HJp HJs; [discriminate|].
  rewrite walk_S in H.
  destruct (g !! h) as [node|] eqn:Hh; [|discriminate].
  pose proof (Hvisit h node p s HJp HJs) as Hv.
  destruct (visitor h node p s) as [[|] s1]; cbn [snd] in Hv.
  - refine (forEachChild_invariant _ h node Hh _ _ _ p s1 p' s' _ H HJp Hv).
    + intros c q s0 q' s0'. apply walk_frame.
    + intros c q s0 q' s0'. apply IH.
    + intros e He. by rewrite <- (Horder (LayerHierarchy.mChildren node)).
  - injection H as <- <-. auto.
Qed.

End WalkInvariant.

(** ** Detection of relative-z loops *)

Section Detection.

Variable g : gmap nat LayerHierarchy.t.

Local Abbreviation loopWalk :=
  (walk g (relZLoopVisitor UNASSIGNED_LAYER_ID) (fun _ => true) (fun children => children)).

Lemma relZLoopVisitor_keeps_found h node p (out : Z) :
  out <> UNASSIGNED_LAYER_ID ->
  snd (relZLoopVisitor UNASSIGNED_LAYER_ID h node p out) <> UNASSIGNED_LAYER_ID.
Proof.
  intros H. unfold relZLoopVisitor.
  destruct (hasLoop p) eqn:E; cbn [snd]; [|exact H].
  destruct (out =? UNASSIGNED_LAYER_ID)%Z; [by apply hasLoop_true|exact H].
Qed.

(** Once a duplicate has been stored in the out-parameter it stays stored. *)
Lemma loopWalk_keeps_found fuel h p out p' out' :
  loopWalk fuel h p out = Finished (p', out') ->
  out <> UNASSIGNED_LAYER_ID -> out' <> UNASSIGNED_LAYER_ID.
Proof.
  intros H Hout.
  eapply (walk_invariant g (relZLoopVisitor UNASSIGNED_LAYER_ID) (fun _ => true)
            (fun children => children)
            (fun _ _ => True) (fun o => o <> UNASSIGNED_LAYER_ID)); eauto.
  intros. by apply relZLoopVisitor_keeps_found.
Qed.

Lemma loopChildren_keep_found fuel h node children p out p' out' :
  g !! h = Some node ->
  (forall e, e ∈ children -> e ∈ LayerHierarchy.mChildren node) ->
  forEachChild g (fun _ => true) (loopWalk fuel) children p out = Finished (p', out') ->
  out <> UNASSIGNED_LAYER_ID -> out' <> UNASSIGNED_LAYER_ID.
Proof.
  intros Hh Hsub H Hout.
  eapply (forEachChild_invariant g (fun _ => true)
            (fun _ _ => True) (fun o => o <> UNASSIGNED_LAYER_ID)); eauto.
  - intros c q s q' s'. apply walk_frame.
  - intros c q s q' s' E _ Hs. split; [|done]. eapply loopWalk_keeps_found; eauto.
Qed.

(** A walk that hands back a flagged path has stored a duplicate. *)
Lemma loopWalk_flagged fuel :
  forall h p out p' out',
    loopWalk fuel h p out = Finished (p', out') ->
    hasLoop p' = true -> out' <> UNASSIGNED_LAYER_ID.
Proof.
  induction fuel as [|fuel IH]; intros h p out p' out' H; [discriminate|].
  rewrite walk_S in H.
  destruct (g !! h) as [node|] eqn:Hh; [|discriminate].
  unfold relZLoopVisitor in H at 1.
  destruct (hasLoop p) eqn:Ep.
  { injection H as <- <-. intros _. apply hasLoop_true in Ep.
    destruct (out =? UNASSIGNED_LAYER_ID)%Z eqn:Eo; [exact Ep|by apply Z.eqb_neq]. }
  assert (hasLoop p = true -> out <> UNASSIGNED_LAYER_ID) as Hinv by congruence.
  clear Ep. revert p out Hinv H.
  induction (LayerHierarchy.mChildren node) as [|[c v] rest IHc];
    intros q out0 Hinv H; cbn [forEachChild] in H.
  { injection H as <- <-. exact Hinv. }
  unfold childId in H.
  destruct (childLayer g c) as [l|] eqn:El; [|discriminate].
  pose proof (pop_push q) as Hpp.
  specialize Hpp with (layerId := RequestedLayerState.id l) (v := v).
  destruct (ScopedAddToTraversalPath_push q (RequestedLayerState.id l) v)
    as [scope pushed].
  cbn [fst snd] in Hpp.
  destruct (loopWalk fuel c pushed out0) as [[after out1]| |] eqn:E; try discriminate.
  rewrite (Hpp after (walk_frame _ _ _ _ _ _ _ _ _ _ E)) in H.
  eapply IHc; [|exact H].
  intros Hflag. eapply IH; [exact E|exact Hflag].
Qed.

Lemma withMarker_unflagged (p after : TraversalPath.t) :
  hasLoop p = false -> hasLoop after = false ->
  withMarker (TraversalPath.invalidRelativeRootId after) p = p.
Proof.
  intros Hp Ha. apply hasLoop_false in Hp, Ha. rewrite Ha, <- Hp.
  apply withMarker_same.
Qed.

(** If some route from [h] ends in a flagged path, the walk from [h] stores
    a duplicate. *)
Lemma loopWalk_detects es :
  forall h t, Route g h es t ->
  forall fuel p out p' out',
    hasLoop (pushAlong g p es) = true ->
    loopWalk fuel h p out = Finished (p', out') ->
    out' <> UNASSIGNED_LAYER_ID.
Proof.
  induction es as [|[c v] es IH]; intros h t HR fuel p out p' out' Hflag H;
    (destruct fuel as [|fuel]; [discriminate|]); rewrite walk_S in H;
    (destruct (g !! h) as [node|] eqn:Hh; [|discriminate]);
    unfold relZLoopVisitor in H at 1.
  - cbn [pushAlong] in Hflag. rewrite Hflag in H.
    injection H as <- <-. apply hasLoop_true in Hflag.
    destruct (out =? UNASSIGNED_LAYER_ID)%Z eqn:Eo; [exact Hflag|by apply Z.eqb_neq].
  - destruct (hasLoop p) eqn:Ep.
    { injection H as <- <-. apply hasLoop_true in Ep.
      destruct (out =? UNASSIGNED_LAYER_ID)%Z eqn:Eo; [exact Ep|by apply Z.eqb_neq]. }
    inversion HR as [|h0 node0 c0 v0 es0 t0 Hh0 Hc HR']; subst.
    rewrite Hh in Hh0. injection Hh0 as <-.
    cbn [pushAlong] in Hflag.
    assert (forall children,
               (forall e, e ∈ children -> e ∈ LayerHierarchy.mChildren node) ->
               (c, v) ∈ children ->
               forall q out0,
                 q = p \/ out0 <> UNASSIGNED_LAYER_ID ->
                 forEachChild g (fun _ => true) (loopWalk fuel) children q out0
                   = Finished (p', out') ->
                 out' <> UNASSIGNED_LAYER_ID) as Hloop.
    { clear H. induction children as [|[c1 v1] rest IHc]; intros Hsub Hin q out0 Hq H.
      { by apply elem_of_nil in Hin. }
      destruct (decide (out0 = UNASSIGNED_LAYER_ID)) as [Hout0|Hout0];
        [|eapply loopChildren_keep_found; eauto].
      destruct Hq as [->|Hq]; [|done].
      assert (forall e, e ∈ rest -> e ∈ LayerHierarchy.mChildren node) as Hrest
        by (intros e He; apply Hsub; by right).
      cbn [forEachChild] in H. unfold childId in H.
      destruct (childLayer g c1) as [l1|] eqn:El; [|discriminate].
      pose proof (pop_push p) as Hpp.
      specialize Hpp with (layerId := RequestedLayerState.id l1) (v := v1).
      destruct (ScopedAddToTraversalPath_push p (RequestedLayerState.id l1) v1)
        as [scope pushed] eqn:Epush.
      cbn [fst snd] in Hpp.
      destruct (loopWalk fuel c1 pushed out0) as [[after out1]| |] eqn:E;
        try discriminate.
      rewrite (Hpp after (walk_frame _ _ _ _ _ _ _ _ _ _ E)) in H.
      destruct (decide ((c1, v1) = (c, v))) as [Heq|Hne].
      - injection Heq as -> ->. rewrite El, Epush in Hflag. cbn [snd] in Hflag.
        pose proof (IH c t HR' fuel pushed out0 after out1 Hflag E) as Hfound.
        eapply loopChildren_keep_found; eauto.
      - apply (IHc Hrest) with (q := withMarker (TraversalPath.invalidRelativeRootId after) p)
                               (out0 := out1); [| |exact H].
        + apply elem_of_cons in Hin as [Hin|Hin]; [congruence|exact Hin].
        + destruct (hasLoop after) eqn:Ea.
          * right. eapply loopWalk_flagged; eauto.
          * left. by apply withMarker_unflagged. }
    apply (Hloop _ (fun e He => He) Hc p out); [by left|exact H].
Qed.

End Detection.

Lemma Route_start_some (g : gmap nat LayerHierarchy.t) h es t :
  Route g h es t -> is_Some (g !! t) -> is_Some (g !! h).
Proof. intros [] ?; eauto. Qed.

Lemma Route_app (g : gmap nat LayerHierarchy.t) h es m es' t :
  Route g h es m -> Route g m es' t -> Route g h (es ++ es') t.
Proof.
  induction 1 as [|h node c v es m Hh Hc HR IH]; intros H'; [exact H'|].
  simpl. econstructor; eauto.
Qed.

Lemma pushAlong_app (g : gmap nat LayerHierarchy.t) h es m :
  closed UNASSIGNED_LAYER_ID g -> Route g h es m ->
  forall p es', pushAlong g p (es ++ es') = pushAlong g (pushAlong g p es) es'.
Proof.
  intros Hcl. induction 1 as [|h node c v es m Hh Hc HR IH]; intros p es'; [done|].
  destruct (Hcl h node c v Hh Hc) as [l [Hl _]].
  simpl. rewrite Hl. apply IH.
Qed.

Lemma relZLoopVisitor_prunes : prunesLoops UNASSIGNED_LAYER_ID (relZLoopVisitor UNASSIGNED_LAYER_ID).
Proof. intros h node p s E. unfold relZLoopVisitor. by rewrite E. Qed.

Lemma Route_snoc (g : gmap nat LayerHierarchy.t) x es h node c v :
  Route g x es h -> g !! h = Some node -> (c, v) ∈ LayerHierarchy.mChildren node ->
  Route g x (es ++ [(c, v)]) c.
Proof.
  intros HR Hh Hc. eapply Route_app; [exact HR|].
  econstructor; [exact Hh|exact Hc|constructor].
Qed.

Lemma Route_last_edge (g : gmap nat LayerHierarchy.t) x es c v t :
  Route g x (es ++ [(c, v)]) t ->
  t = c /\ exists h node, g !! h = Some node /\ (c, v) ∈ LayerHierarchy.mChildren node.
Proof.
  revert x. induction es as [|e es IH]; intros x HR; simpl in HR.
  - inversion HR as [|h node c0 v0 es0 t0 Hh Hc HR']; subst.
    inversion HR'; subst. eauto.
  - inversion HR; subst. eauto.
Qed.

(** The duplicate marker of a path only ever holds the id of a layer on a
    relative-parent cycle, and so does what a visitor keeps of it. *)
Lemma walk_marker_on_cycle {St : Type} (g : gmap nat LayerHierarchy.t)
    (visitor : Visitor St) (enters : Variant -> bool)
    (order : list (nat * Variant) -> list (nat * Variant)) (Js : St -> Prop)
    fuel h s p' s' :
  (forall children, order children ≡ₚ children) ->
  (forall x node p s0,
      TraversalPath.invalidRelativeRootId p = UNASSIGNED_LAYER_ID
      \/ onRelativeCycle g (TraversalPath.invalidRelativeRootId p) ->
      Js s0 -> Js (snd (visitor x node p s0))) ->
  Js s ->
  walk g visitor enters order fuel h (ROOT_TRAVERSAL_ID UNASSIGNED_LAYER_ID) s
    = Finished (p', s') ->
  Js s' /\
  (TraversalPath.invalidRelativeRootId p' = UNASSIGNED_LAYER_ID
   \/ onRelativeCycle g (TraversalPath.invalidRelativeRootId p')).
Proof.
  intros Horder Hvis Hs H.
  set (Jp := fun (x : nat) (p : TraversalPath.t) =>
               (TraversalPath.invalidRelativeRootId p = UNASSIGNED_LAYER_ID
                \/ onRelativeCycle g (TraversalPath.invalidRelativeRootId p)) /\
               forall i, i ∈ TraversalPath.relativeRootIds p ->
                 exists c l es, childLayer g c = Some l /\
                                RequestedLayerState.id l = i /\ Route g c es x).
  assert (forall x node p s0, Jp x p -> Js s0 -> Js (snd (visitor x node p s0))) as Hvisit.
  { intros x node p s0 [Hp _]. by apply Hvis. }
  assert (forall x node c v l p,
            g !! x = Some node -> (c, v) ∈ LayerHierarchy.mChildren node ->
            childLayer g c = Some l -> Jp x p ->
            Jp c (snd (ScopedAddToTraversalPath_push p (RequestedLayerState.id l) v)))
    as Hpush.
  { intros x node c v l p Hx Hc Hl [Hmark Hstack].
    assert (forall i, i ∈ TraversalPath.relativeRootIds p ->
              exists c0 l0 es, childLayer g c0 = Some l0 /\
                               RequestedLayerState.id l0 = i /\
                               Route g c0 (es ++ [(c, v)]) c) as Hext.
    { intros i Hi. destruct (Hstack i Hi) as (c0 & l0 & es & Hl0 & Hid & HR).
      exists c0, l0, es. repeat split; try assumption. eapply Route_snoc; eauto. }
    split.
    + cbn [snd ScopedAddToTraversalPath_push TraversalPath.invalidRelativeRootId].
      destruct v; try exact Hmark.
      destruct (contains _ _) eqn:C; [|exact Hmark].
      right. apply contains_elem in C.
      destruct (Hext _ C) as (c0 & l0 & es & Hl0 & Hid & HR).
      exists c0, c, l0, l, es. auto.
    + cbn [snd ScopedAddToTraversalPath_push TraversalPath.relativeRootIds].
      intros i Hi.
      assert (i ∈ TraversalPath.relativeRootIds p \/
              (v = Relative /\ i = RequestedLayerState.id l)) as [Hi'|[-> ->]].
      { destruct v; auto. apply elem_of_app in Hi as [Hi|Hi]; [auto|].
        apply list_elem_of_singleton in Hi. auto. }
      * destruct (Hext i Hi') as (c0 & l0 & es & Hl0 & Hid & HR).
        exists c0, l0, (es ++ [(c, v)]). auto.
      * exists c, l, []. repeat split; [assumption|constructor]. }
  assert (forall x c p after, Jp x p -> Jp c after ->
            Jp x (withMarker (TraversalPath.invalidRelativeRootId after) p)) as Hpop.
  { intros x c p after [_ Hstack] [Hmark _]. split; assumption. }
  destruct (walk_invariant g visitor enters order Jp Js Horder Hvisit Hpush Hpop
              fuel h _ _ _ _ H) as [Hs' [Hm _]]; [|exact Hs|by split].
  split; [by left|]. intros i Hi. by apply elem_of_nil in Hi.
Qed.

(** The out-parameter only ever receives the id of a layer on a
    relative-parent cycle. *)
Lemma loopWalk_out_on_cycle (g : gmap nat LayerHierarchy.t) fuel h p' out :
  walk g (relZLoopVisitor UNASSIGNED_LAYER_ID) (fun _ => true) (fun children => children)
    fuel h (ROOT_TRAVERSAL_ID UNASSIGNED_LAYER_ID) UNASSIGNED_LAYER_ID = Finished (p', out) ->
  out = UNASSIGNED_LAYER_ID \/ onRelativeCycle g out.
Proof.
  intros H.
  eapply proj1, (walk_marker_on_cycle g _ _ _
                   (fun o : Z => o = UNASSIGNED_LAYER_ID \/ onRelativeCycle g o)
                   fuel h _ p' out (fun children => Permutation_refl children));
    [| |exact H].
  - intros x node p s Hp Hs. unfold relZLoopVisitor.
    destruct (hasLoop p); cbn [snd]; [|assumption].
    destruct (s =? UNASSIGNED_LAYER_ID)%Z; assumption.
  - by left.
Qed.

(** Entering Relative edges to [b], to [a] and to [b] again flags the path. *)
Lemma push_cycle_flags (p : TraversalPath.t) (ia ib : Z) :
  ib <> UNASSIGNED_LAYER_ID ->
  hasLoop
    (snd (ScopedAddToTraversalPath_push
       (snd (ScopedAddToTraversalPath_push
          (snd (ScopedAddToTraversalPath_push p ib Relative)) ia Relative))
       ib Relative)) = true.
Proof.
  intros Hb. apply hasLoop_true.
  cbn [snd ScopedAddToTraversalPath_push TraversalPath.invalidRelativeRootId
       TraversalPath.relativeRootIds].
  replace (contains ((TraversalPath.relativeRootIds p ++ [ib]) ++ [ia]) ib) with true;
    [exact Hb|].
  symmetry. apply contains_elem. rewrite !elem_of_app, !list_elem_of_singleton. tauto.
Qed.

(** C1. Let [a] and [b] be nodes of a well-formed graph that are relative
    children of each other ([b] hangs under [a] by a Relative edge and [a]
    under [b]), and let [a] be reachable from [root].  Then [hasRelZLoop]
    called on [root] returns true, and the id it writes to its out-parameter
    is the id of a layer on a relative-parent cycle: a relative root that the
    walk reached a second time.  When [a] and [b] are the only relative
    children of the graph, it is the id of [a] or of [b].  Underneath,
    pushing a Relative edge whose id is already on the relative-root stack
    makes that id the duplicate marker and makes [TraversalPath::hasRelZLoop]
    true, and the id is pushed all the same. *)
Theorem hasRelZLoop_reports_cycle :
  forall (g : gmap nat LayerHierarchy.t) (rank : nat -> nat) (bound : nat)
         (root a b : nat) (nodeA nodeB : LayerHierarchy.t)
         (la lb : RequestedLayerState.t) (es : list (nat * Variant)),
    closed UNASSIGNED_LAYER_ID g ->
    ranked g rank bound ->
    Route g root es a ->
    g !! a = Some nodeA -> g !! b = Some nodeB ->
    LayerHierarchy.mLayer nodeA = Some la -> LayerHierarchy.mLayer nodeB = Some lb ->
    (b, Relative) ∈ LayerHierarchy.mChildren nodeA ->
    (a, Relative) ∈ LayerHierarchy.mChildren nodeB ->
    (exists fuel out,
        (forall fuel', fuel <= fuel' ->
           hasRelZLoop UNASSIGNED_LAYER_ID g fuel' root = Finished (true, out)) /\
        onRelativeCycle g out /\
        ((forall h node c,
             g !! h = Some node -> (c, Relative) ∈ LayerHierarchy.mChildren node ->
             c = a \/ c = b) ->
         out = RequestedLayerState.id la \/ out = RequestedLayerState.id lb)) /\
    (forall (p : TraversalPath.t) (i : Z),
        i ∈ TraversalPath.relativeRootIds p -> i <> UNASSIGNED_LAYER_ID ->
        let q := snd (ScopedAddToTraversalPath_push p i Relative) in
        TraversalPath.invalidRelativeRootId q = i /\
        hasLoop q = true /\
        TraversalPath.relativeRootIds q = TraversalPath.relativeRootIds p ++ [i]).
Proof.
  intros g rank bound root a b nodeA nodeB la lb es
    Hcl Hrk HR Ha Hb Hla Hlb Hab Hba.
  assert (childLayer g a = Some la) as Hca by (unfold childLayer; by rewrite Ha).
  assert (childLayer g b = Some lb) as Hcb by (unfold childLayer; by rewrite Hb).
  split.
  - set (root_path := ROOT_TRAVERSAL_ID UNASSIGNED_LAYER_ID).
    set (n := allowance g rank bound root root_path).
    destruct (walk_terminates_aux g (relZLoopVisitor UNASSIGNED_LAYER_ID)
                (fun _ => true) (fun children => children) rank bound
                (fun children => Permutation_refl children)
                Hcl Hrk relZLoopVisitor_prunes
                n root root_path UNASSIGNED_LAYER_ID) as (p' & out & Hwalk).
    { eapply Route_start_some; eauto. }
    { apply pathOk_root. }
    { right. split; [by apply hasLoop_false|done]. }
    assert (out <> UNASSIGNED_LAYER_ID) as Hfound.
    { assert (Route g root (es ++ [(b, Relative); (a, Relative); (b, Relative)]) b) as HR'.
      { eapply Route_app; [exact HR|].
        econstructor; [exact Ha|exact Hab|].
        econstructor; [exact Hb|exact Hba|].
        econstructor; [exact Ha|exact Hab|]. constructor. }
      eapply (loopWalk_detects g _ root b HR'); [|exact Hwalk].
      rewrite (pushAlong_app g root es a Hcl HR).
      cbn [pushAlong]. rewrite Hcb, Hca. apply push_cycle_flags.
      destruct (Hcl a nodeA b Relative Ha Hab) as [l [Hl Hne]]. congruence. }
    assert (onRelativeCycle g out) as Hcyc.
    { destruct (loopWalk_out_on_cycle g n root p' out Hwalk); [congruence|done]. }
    exists n, out. split; [|split; [exact Hcyc|]].
    + intros fuel' Hle.
      pose proof (walk_more_fuel g _ _ _ n fuel' _ _ _ _ Hwalk Hle) as Hw.
      unfold hasRelZLoop, traverse_from_root, traverse. fold root_path. rewrite Hw.
      f_equal. f_equal. apply negb_true_iff. by apply Z.eqb_neq.
    + intros Honly.
      destruct Hcyc as (c & c' & l & l' & es' & Hl & Hl' & Hid & Hid' & HRc).
      apply Route_last_edge in HRc as [_ (h & node & Hh & Hc)].
      destruct (Honly h node c' Hh Hc) as [-> | ->]; [left|right]; congruence.
  - intros p i Hi Hne q. subst q.
    cbn [snd ScopedAddToTraversalPath_push TraversalPath.invalidRelativeRootId
         TraversalPath.relativeRootIds].
    apply contains_elem in Hi. rewrite hasLoop_true.
    cbn [TraversalPath.invalidRelativeRootId]. rewrite Hi. auto.
Qed.


Section TerminationAcyclic.

Variable g : gmap nat LayerHierarchy.t.
Context {St : Type}.
Variable visitor : Visitor St.
Variable enters : Variant -> bool.
Variable order : list (nat * Variant) -> list (nat * Variant).
Variable rank : nat -> nat.
Hypothesis Horder : forall children, order children ≡ₚ children.
Hypothesis Hclosed : closed UNASSIGNED_LAYER_ID g.
Hypothesis Hacyclic : acyclic g rank.

(** On a graph all of whose edges go down, the depth of the walk is bounded
    by the rank of the node it starts from, whatever the visitor answers. *)
Lemma walk_terminates_acyclic n :
  forall h p s,
    is_Some (g !! h) -> rank h < n ->
    exists p' s', walk g visitor enters order n h p s = Finished (p', s').
Proof.
  induction n as [|n IH]; intros h p s [node Hh] Hn; [lia|].
  rewrite walk_S, Hh.
  destruct (visitor h node p s) as [[|] s1]; [|eauto].
  clear s.
  assert (forall children, (forall e, e ∈ children -> e ∈ LayerHierarchy.mChildren node) ->
          forall q s, exists p' s',
            forEachChild g enters (walk g visitor enters order n) children q s
            = Finished (p', s'))
    as Hloop.
  { induction children as [|[c v] rest IHc]; intros Hsub q s; cbn [forEachChild]; [eauto|].
    assert (forall e, e ∈ rest -> e ∈ LayerHierarchy.mChildren node) as Hrest
      by (intros e He; apply Hsub; by right).
    destruct (enters v); [|by apply IHc].
    assert ((c, v) ∈ LayerHierarchy.mChildren node) as Hc by (apply Hsub; by left).
    destruct (Hclosed h node c v Hh Hc) as [l [Hl Hid]].
    rewrite (childId_Finished g c l Hl).
    destruct (ScopedAddToTraversalPath_push q (RequestedLayerState.id l) v)
      as [scope pushed].
    assert (is_Some (g !! c)) as Hsome.
    { unfold childLayer in Hl. destruct (g !! c); [eauto|discriminate]. }
    pose proof (Hacyclic h node c v Hh Hc) as Hlt.
    destruct (IH c pushed s Hsome) as (after & s2 & E); [lia|].
    rewrite E. by apply IHc. }
  apply Hloop. intros e He. by rewrite <- (Horder (LayerHierarchy.mChildren node)).
Qed.

End TerminationAcyclic.

(** ** Checking the hypotheses on a concrete graph *)

Lemma edgesForall_sound (g : gmap nat LayerHierarchy.t) check :
  edgesForall g check = true ->
  forall h node c v,
    g !! h = Some node -> (c, v) ∈ LayerHierarchy.mChildren node -> check h c v = true.
Proof.
  unfold edgesForall. rewrite forallb_forall. intros H h node c v Hh Hc.
  specialize (H (h, node)). rewrite forallb_forall in H.
  apply (H (proj1 (list_elem_of_In _ _) (proj2 (elem_of_map_to_list g h node) Hh)) (c, v)).
  by apply list_elem_of_In.
Qed.

Lemma closed_check (g : gmap nat LayerHierarchy.t) :
  edgesForall g (fun _ c _ =>
    match childLayer g c with
    | Some l => negb (RequestedLayerState.id l =? UNASSIGNED_LAYER_ID)%Z
    | None => false
    end) = true ->
  closed UNASSIGNED_LAYER_ID g.
Proof.
  intros H h node c v Hh Hc. pose proof (edgesForall_sound g _ H h node c v Hh Hc) as E.
  simpl in E. destruct (childLayer g c) as [l|]; [|discriminate].
  exists l. split; [done|]. apply Z.eqb_neq. by apply negb_true_iff.
Qed.

Lemma ranked_check (g : gmap nat LayerHierarchy.t) rank bound :
  (forall h, rank h <= bound) ->
  edgesForall g (fun h c v => bool_decide (v = Relative) || (rank c <? rank h)) = true ->
  ranked g rank bound.
Proof.
  intros Hb H. split; [exact Hb|]. intros h node c v Hh Hc Hv.
  pose proof (edgesForall_sound g _ H h node c v Hh Hc) as E. simpl in E.
  apply orb_true_iff in E as [E|E]; [by apply bool_decide_eq_true in E|].
  by apply Nat.ltb_lt.
Qed.

Lemma acyclic_check (g : gmap nat LayerHierarchy.t) rank :
  edgesForall g (fun h c _ => rank c <? rank h) = true -> acyclic g rank.
Proof.
  intros H h node c v Hh Hc.
  pose proof (edgesForall_sound g _ H h node c v Hh Hc) as E. by apply Nat.ltb_lt.
Qed.

Lemma relative_targets_check (g : gmap nat LayerHierarchy.t) (a b : nat) :
  edgesForall g (fun _ c v =>
    negb (bool_decide (v = Relative)) || (c =? a) || (c =? b)) = true ->
  forall h node c,
    g !! h = Some node -> (c, Relative) ∈ LayerHierarchy.mChildren node -> c = a \/ c = b.
Proof.
  intros H h node c Hh Hc.
  pose proof (edgesForall_sound g _ H h node c Relative Hh Hc) as E. simpl in E.
  apply orb_true_iff in E as [E|E]; [left|right]; by apply Nat.eqb_eq.
Qed.


(** ** Path restoration *)

Lemma Route_rank (g : gmap nat LayerHierarchy.t) rank c es c' :
  acyclic g rank -> Route g c es c' -> es <> [] -> rank c' < rank c.
Proof.
  intros Hac HR. induction HR as [|h node c v es t Hh Hc HR IH]; [done|].
  intros _. pose proof (Hac h node c v Hh Hc) as Hlt.
  destruct es as [|e es].
  - inversion HR; subst. exact Hlt.
  - assert (rank t < rank c) by (apply IH; done). lia.
Qed.

Lemma acyclic_no_relative_cycle (g : gmap nat LayerHierarchy.t) rank i :
  acyclic g rank -> uniqueIds g -> ~ onRelativeCycle g i.
Proof.
  intros Hac Huniq (c & c' & l & l' & es & Hl & Hl' & Hid & Hid' & HR).
  assert (c = c') as <- by (eapply Huniq; eauto; congruence).
  assert (rank c < rank c); [|lia].
  eapply Route_rank; eauto. by destruct es.
Qed.



(** ** When the walks return *)

(** On a well-formed graph (every edge leads to a node with a record, and
    only Relative edges may lead back up) both walks from [ROOT_TRAVERSAL_ID]
    return, for every recursion depth from some depth on, in two cases: for
    every visitor when no edge of the graph leads back up, and for every
    visitor that returns false on a path whose [hasRelZLoop()] is true. *)
Theorem traversals_return :
  forall (St : Type) (g : gmap nat LayerHierarchy.t) (visitor : Visitor St)
         (rank : nat -> nat) (bound : nat) (h : nat),
    closed UNASSIGNED_LAYER_ID g ->
    ranked g rank bound ->
    is_Some (g !! h) ->
    acyclic g rank \/ prunesLoops UNASSIGNED_LAYER_ID visitor ->
    exists fuel, forall fuel' s, fuel <= fuel' ->
      (exists p' s', traverse_from_root UNASSIGNED_LAYER_ID g visitor fuel' h s
                     = Finished (p', s')) /\
      (exists p' s', traverseInZOrder_from_root UNASSIGNED_LAYER_ID g visitor fuel' h s
                     = Finished (p', s')).
Proof.
  intros St g visitor rank bound h Hcl Hrk Hh Hcase.
  set (root_path := ROOT_TRAVERSAL_ID UNASSIGNED_LAYER_ID).
  exists (allowance g rank bound h root_path).
  intros fuel' s Hle.
  unfold traverse_from_root, traverseInZOrder_from_root, traverse, traverseInZOrder.
  fold root_path.
  assert (rank h < fuel') as Hlt.
  { unfold allowance in Hle. revert Hle.
    generalize ((length (allIds g) - length (TraversalPath.relativeRootIds root_path))
                * (bound + 1)).
    intros k Hle. lia. }
  destruct Hcase as [Hac|Hpr].
  - split; apply walk_terminates_acyclic with (rank := rank); auto.
    apply sortByZ_Permutation.
  - split; apply walk_terminates_aux with (rank := rank) (bound := bound); auto;
      try apply sortByZ_Permutation;
      try apply pathOk_root; right; (split; [by apply hasLoop_false|done]).
Qed.

(** ** Accounting for visits *)

Lemma visitsAs_app b v (l1 l2 : list (nat * Variant)) :
  visitsAs b v (l1 ++ l2) = visitsAs b v l1 + visitsAs b v l2.
Proof. unfold visitsAs. by rewrite filter_app, length_app. Qed.

Lemma visitsOf_app b (l1 l2 : list (nat * Variant)) :
  visitsOf b (l1 ++ l2) = visitsOf b l1 + visitsOf b l2.
Proof. unfold visitsOf. by rewrite filter_app, length_app. Qed.

Lemma descents_app g enters b v (l1 l2 : list (nat * Variant)) :
  descents g enters b v (l1 ++ l2) = descents g enters b v l1 + descents g enters b v l2.
Proof.
  unfold descents. destruct (enters v); [|done].
  by rewrite sum_list_with_app.
Qed.

Section VisitAccounting.

Variable g : gmap nat LayerHierarchy.t.
Variable enters : Variant -> bool.
Variable order : list (nat * Variant) -> list (nat * Variant).
Variable b : nat.
Variable v : Variant.
Hypothesis Horder : forall children, order children ≡ₚ children.

Lemma forEachChild_accounting
    (descend : nat -> TraversalPath.t -> list (nat * Variant) ->
               Walk (TraversalPath.t * list (nat * Variant))) :
  (forall c q log q' log',
      descend c q log = Finished (q', log') ->
      visitsAs b v log' + descents g enters b v log
      = visitsAs b v log + descents g enters b v log' + startsAt b v c q) ->
  forall children p log p' log',
    forEachChild g enters descend children p log = Finished (p', log') ->
    visitsAs b v log' + descents g enters b v log
    = visitsAs b v log + descents g enters b v log'
      + (if enters v then length (filter (fun e => e = (b, v)) children) else 0).
Proof.
  intros Hd children.
  induction children as [|[c vc] rest IH]; intros p log p' log' H;
    cbn [forEachChild] in H.
  - injection H as <- <-. destruct (enters v); simpl; lia.
  - destruct (enters vc) eqn:Een.
    + destruct (childId g c) as [i| |]; try discriminate.
      assert (TraversalPath.variant (snd (ScopedAddToTraversalPath_push p i vc)) = vc)
        as Hvar by reflexivity.
      destruct (ScopedAddToTraversalPath_push p i vc) as [scope pushed].
      cbn [fst snd] in *.
      destruct (descend c pushed log) as [[after log1]| |] eqn:E; try discriminate.
      pose proof (Hd _ _ _ _ _ E) as Hacc.
      specialize (IH _ _ _ _ H).
      unfold startsAt in Hacc. rewrite Hvar in Hacc.
      destruct (decide ((c, vc) = (b, v))) as [Heq|Hne].
      * injection Heq as -> ->. rewrite Een in *.
        rewrite filter_cons_True by done.
        rewrite filter_cons_True in Hacc by done. simpl in *. lia.
      * rewrite filter_cons_False by done.
        rewrite filter_cons_False in Hacc by done. simpl in *. lia.
    + specialize (IH _ _ _ _ H).
      destruct (decide ((c, vc) = (b, v))) as [Heq|Hne].
      * injection Heq as -> ->. rewrite Een in *. exact IH.
      * rewrite filter_cons_False by done. exact IH.
Qed.

(** Every visit of [b] by kind [v] is either the start of the walk or the
    descent of an edge [(b, v)] from a node the walk visited. *)
Lemma walk_accounting fuel :
  forall h p log p' log',
    walk g keyLogVisitor enters order fuel h p log = Finished (p', log') ->
    visitsAs b v log' + descents g enters b v log
    = visitsAs b v log + descents g enters b v log' + startsAt b v h p.
Proof.
  induction fuel as [|fuel IH]; intros h p log p' log' H; [discriminate|].
  rewrite walk_S in H.
  destruct (g !! h) as [node|] eqn:Hh; [|discriminate].
  cbn [keyLogVisitor] in H.
  pose proof (forEachChild_accounting _ (IH) _ _ _ _ _ H) as Hacc.
  rewrite visitsAs_app, descents_app in Hacc.
  assert (descents g enters b v [(h, TraversalPath.variant p)]
          = if enters v
            then length (filter (fun e => e = (b, v))
                           (order (LayerHierarchy.mChildren node)))
            else 0) as Hd.
  { unfold descents, edgeCount. destruct (enters v); [|done]. simpl. rewrite Hh.
    rewrite (Horder (LayerHierarchy.mChildren node)). lia. }
  rewrite Hd in Hacc. unfold startsAt. unfold visitsAs in Hacc at 3. lia.
Qed.

End VisitAccounting.

Lemma visitsOf_by_kind b (log : list (nat * Variant)) :
  visitsOf b log
  = visitsAs b Attached log + visitsAs b Detached log
    + visitsAs b Relative log + visitsAs b Mirror log.
Proof.
  unfold visitsOf, visitsAs. induction log as [|[x k] log IH]; [done|].
  destruct (decide (x = b)) as [->|Hne].
  - rewrite (filter_cons_True (fun e => fst e = b)) by done.
    destruct k;
      repeat (first [rewrite filter_cons_True by done
                    |rewrite filter_cons_False by (intros [=])]);
      simpl; lia.
  - rewrite !filter_cons_False by (simpl; congruence). exact IH.
Qed.

Lemma descents_indicator g enters b v X (log : list (nat * Variant)) :
  enters v = true ->
  (forall x, edgeCount g x b v = if decide (x = X) then 1 else 0) ->
  descents g enters b v log = visitsOf X log.
Proof.
  intros He Hx. unfold descents, visitsOf. rewrite He.
  induction log as [|[x k] log IH]; [done|].
  simpl. rewrite IH, Hx.
  destruct (decide (x = X)) as [->|Hne].
  - by rewrite filter_cons_True.
  - by rewrite filter_cons_False.
Qed.

Lemma descents_none g enters b v (log : list (nat * Variant)) :
  enters v = false \/ (forall x, edgeCount g x b v = 0) ->
  descents g enters b v log = 0.
Proof.
  intros H. unfold descents. destruct (enters v); [|done].
  destruct H as [H|H]; [discriminate|].
  induction log as [|[x k] log IH]; [done|]. simpl. by rewrite IH, H.
Qed.


(** ** Nodes the walk reaches in one way only *)



Lemma startsAt_other (x : nat) (k : Variant) (h : nat) (p : TraversalPath.t) :
  x <> h -> startsAt x k h p = 0.
Proof. intros Hne. unfold startsAt. by rewrite filter_cons_False by congruence. Qed.

Lemma descents_nil g enters (b : nat) (v : Variant) : descents g enters b v [] = 0.
Proof. unfold descents. by destruct (enters v). Qed.


(** ** A layer with a structural and a relative parent *)

(** The visits of a node [b] whose only incoming edges are a Detached edge
    from [P] and a Relative edge from [R], by kind. *)
Lemma relative_child_counts (g : gmap nat LayerHierarchy.t) (enters : Variant -> bool)
    (order : list (nat * Variant) -> list (nat * Variant))
    (b P R root fuel : nat) (p p' : TraversalPath.t) (log : list (nat * Variant)) :
  (forall children, order children ≡ₚ children) ->
  root <> b -> is_Some (g !! P) -> is_Some (g !! R) ->
  (forall x node v,
      g !! x = Some node ->
      length (filter (fun e => e = (b, v)) (LayerHierarchy.mChildren node))
      = (if decide (x = P /\ v = Detached) then 1 else 0)
        + (if decide (x = R /\ v = Relative) then 1 else 0)) ->
  walk g keyLogVisitor enters order fuel root p [] = Finished (p', log) ->
  visitsAs b Attached log = 0 /\
  visitsAs b Mirror log = 0 /\
  visitsAs b Detached log = (if enters Detached then visitsOf P log else 0) /\
  visitsAs b Relative log = (if enters Relative then visitsOf R log else 0).
Proof.
  intros Horder Hne [nP HnP] [nR HnR] Hedges H.
  assert (forall x v, edgeCount g x b v
                      = (if decide (x = P /\ v = Detached) then 1 else 0)
                        + (if decide (x = R /\ v = Relative) then 1 else 0)) as Hcount.
  { intros x v. unfold edgeCount. destruct (g !! x) as [node|] eqn:Hx; [by apply Hedges|].
    repeat destruct (decide _); intuition congruence. }
  assert (forall x, edgeCount g x b Detached = if decide (x = P) then 1 else 0) as HcD.
  { intros x. rewrite Hcount. repeat destruct (decide _); intuition congruence. }
  assert (forall x, edgeCount g x b Relative = if decide (x = R) then 1 else 0) as HcR.
  { intros x. rewrite Hcount. repeat destruct (decide _); intuition congruence. }
  assert (forall x, edgeCount g x b Attached = 0) as HcA.
  { intros x. rewrite Hcount. repeat destruct (decide _); intuition congruence. }
  assert (forall x, edgeCount g x b Mirror = 0) as HcM.
  { intros x. rewrite Hcount. repeat destruct (decide _); intuition congruence. }
  pose proof (fun k => walk_accounting g enters order b k Horder _ _ _ _ _ _ H) as A.
  pose proof (A Attached) as AA. pose proof (A Detached) as AD.
  pose proof (A Relative) as AR. pose proof (A Mirror) as AM. clear A.
  rewrite !descents_nil, !startsAt_other in * by done.
  change (visitsAs b _ []) with 0 in *.
  rewrite (descents_none g _ b Attached) in AA by (by right).
  rewrite (descents_none g _ b Mirror) in AM by (by right).
  repeat split; [lia|lia| |].
  - destruct (enters Detached) eqn:E.
    + rewrite (descents_indicator g _ b Detached P) in AD by done. lia.
    + rewrite (descents_none g _ b Detached) in AD by (by left). lia.
  - destruct (enters Relative) eqn:E.
    + rewrite (descents_indicator g _ b Relative R) in AR by done. lia.
    + rewrite (descents_none g _ b Relative) in AR by (by left). lia.
Qed.


(** In general [traverse] visits such a layer once for each visit of its
    structural parent, by kind Detached, and once for each visit of its
    relative parent, by kind Relative, and in no other way;
    [traverseInZOrder] visits it once for each visit of its relative parent,
    by kind Relative, and in no other way.  The two parents are nodes with a
    record, and the walks may start from any node other than the layer, with
    any path. *)
Theorem visits_per_parent :
  forall (g : gmap nat LayerHierarchy.t) (root b P R : nat)
         (nodeP nodeR : LayerHierarchy.t) (fuel : nat)
         (p q' : TraversalPath.t) (log : list (nat * Variant)) (inZOrder : bool),
    root <> b ->
    g !! P = Some nodeP -> g !! R = Some nodeR ->
    LayerHierarchy.mLayer nodeP <> None -> LayerHierarchy.mLayer nodeR <> None ->
    (forall x node v,
        g !! x = Some node ->
        length (filter (fun e => e = (b, v)) (LayerHierarchy.mChildren node))
        = (if decide (x = P /\ v = Detached) then 1 else 0)
          + (if decide (x = R /\ v = Relative) then 1 else 0)) ->
    (if inZOrder
     then traverseInZOrder g keyLogVisitor fuel root p []
     else traverse g keyLogVisitor fuel root p []) = Finished (q', log) ->
    visitsAs b Detached log = (if inZOrder then 0 else visitsOf P log) /\
    visitsAs b Relative log = visitsOf R log /\
    visitsOf b log = (if inZOrder then 0 else visitsOf P log) + visitsOf R log.
Proof.
  intros g root b P R nodeP nodeR fuel p q' log inZOrder
    Hne HP HR _ _ Hedges H.
  rewrite (visitsOf_by_kind b).
  destruct inZOrder.
  - destruct (relative_child_counts g visibleKind (sortByZ g) b P R root fuel _ _ log
                (sortByZ_Permutation g) Hne (mk_is_Some _ _ HP) (mk_is_Some _ _ HR)
                Hedges H) as (CA & CM & CD & CR).
    change (visibleKind Detached) with false in CD.
    change (visibleKind Relative) with true in CR.
    cbn iota in CD, CR. lia.
  - destruct (relative_child_counts g _ _ b P R root fuel _ _ log
                (fun children => Permutation_refl children) Hne
                (mk_is_Some _ _ HP) (mk_is_Some _ _ HR) Hedges H)
      as (CA & CM & CD & CR).
    cbn beta iota in CD, CR. lia.
Qed.

Lemma nodesForall_sound (g : gmap nat LayerHierarchy.t) check :
  nodesForall g check = true ->
  forall x node, g !! x = Some node -> check x node = true.
Proof.
  unfold nodesForall. rewrite forallb_forall. intros H x node Hx.
  apply (H (x, node)). apply list_elem_of_In. by apply elem_of_map_to_list.
Qed.

Lemma incomingEdges_check (g : gmap nat LayerHierarchy.t) (b P R : nat) :
  nodesForall g (incomingEdgesCheck b P R) = true ->
  forall x node v,
    g !! x = Some node ->
    length (filter (fun e => e = (b, v)) (LayerHierarchy.mChildren node))
    = (if decide (x = P /\ v = Detached) then 1 else 0)
      + (if decide (x = R /\ v = Relative) then 1 else 0).
Proof.
  intros H x node v Hx. pose proof (nodesForall_sound g _ H x node Hx) as E.
  unfold incomingEdgesCheck in E. rewrite forallb_forall in E.
  apply Nat.eqb_eq, E. destruct v; simpl; tauto.
Qed.



(** ** The order of the visits *)

Section RecordedWalk.

Variable g : gmap nat LayerHierarchy.t.
Variable descends : nat -> TraversalPath.t -> bool.
Variable enters : Variant -> bool.
Variable order : list (nat * Variant) -> list (nat * Variant).

Local Abbreviation recWalk := (walk g (recordVisitor descends) enters order).

(** What a child loop adds to the log does not depend on the log. *)
Lemma recordChildren_shift
    (descend : nat -> TraversalPath.t -> list (nat * TraversalPath.t) ->
               Walk (TraversalPath.t * list (nat * TraversalPath.t))) :
  (forall c q l q' l',
      descend c q l = Finished (q', l') ->
      exists rest, l' = l ++ (c, q) :: rest /\
                   forall l0, descend c q l0 = Finished (q', l0 ++ (c, q) :: rest)) ->
  forall children p l p' l',
    forEachChild g enters descend children p l = Finished (p', l') ->
    exists dl, l' = l ++ dl /\
               forall l0, forEachChild g enters descend children p l0
                          = Finished (p', l0 ++ dl).
Proof.
  intros Hd children.
  induction children as [|[c v] rest IH]; intros p l p' l' H; cbn [forEachChild] in *.
  - injection H as <- <-. exists []. rewrite app_nil_r. split; [done|].
    intros l0. by rewrite app_nil_r.
  - destruct (enters v); [|eauto].
    destruct (childId g c) as [i| |]; try discriminate.
    destruct (ScopedAddToTraversalPath_push p i v) as [scope pushed].
    destruct (descend c pushed l) as [[after l1]| |] eqn:E; try discriminate.
    destruct (Hd _ _ _ _ _ E) as (r1 & -> & Hall).
    destruct (IH _ _ _ _ H) as (dl & -> & Hall').
    exists (((c, pushed) :: r1) ++ dl). split; [by rewrite app_assoc|].
    intros l0. rewrite Hall, Hall'. by rewrite app_assoc.
Qed.

(** A walk starts its part of the log with the visit of the node it is
    called on, and what it adds to the log does not depend on the log. *)
Lemma recordWalk_shift fuel :
  forall h p l p' l',
    recWalk fuel h p l = Finished (p', l') ->
    exists rest, l' = l ++ (h, p) :: rest /\
                 forall l0, recWalk fuel h p l0 = Finished (p', l0 ++ (h, p) :: rest).
Proof.
  induction fuel as [|fuel IH]; intros h p l p' l' H; [discriminate|].
  rewrite walk_S in H.
  destruct (g !! h) as [node|] eqn:Hh; [|discriminate].
  cbn [recordVisitor] in H.
  destruct (descends h p) eqn:Ed.
  - destruct (recordChildren_shift _ IH _ _ _ _ _ H) as (dl & -> & Hall).
    exists dl. split; [by rewrite <- app_assoc|].
    intros l0. rewrite walk_S, Hh. cbn [recordVisitor]. rewrite Ed, Hall.
    by rewrite <- app_assoc.
  - injection H as <- <-. exists []. split; [done|].
    intros l0. rewrite walk_S, Hh. cbn [recordVisitor]. by rewrite Ed.
Qed.

(** The log of a child loop is made of the logs of the walks of the children
    it enters, one after the other in the order of the list. *)
Lemma recordChildren_logs fuel :
  forall children p l p' l',
    forEachChild g enters (recWalk fuel) children p l = Finished (p', l') ->
    exists sublogs,
      l' = l ++ concat sublogs /\
      Forall2
        (fun e sub =>
           exists q q' rest,
             sub = (fst e, q) :: rest /\
             TraversalPath.variant q = snd e /\
             childId g (fst e) = Finished (TraversalPath.id q) /\
             recWalk fuel (fst e) q [] = Finished (q', sub))
        (filter (fun e => enters (snd e) = true) children) sublogs.
Proof.
  induction children as [|[c v] rest IH]; intros p l p' l' H; cbn [forEachChild] in H.
  - injection H as <- <-. exists []. simpl. rewrite app_nil_r. split; [done|constructor].
  - destruct (enters v) eqn:Ev.
    + rewrite filter_cons_True by done.
      destruct (childId g c) as [i| |] eqn:Ei; try discriminate.
      assert (TraversalPath.variant (snd (ScopedAddToTraversalPath_push p i v)) = v
              /\ TraversalPath.id (snd (ScopedAddToTraversalPath_push p i v)) = i)
        as [Hvar Hid] by done.
      destruct (ScopedAddToTraversalPath_push p i v) as [scope pushed].
      cbn [snd] in Hvar, Hid.
      destruct (recWalk fuel c pushed l) as [[after l1]| |] eqn:E; try discriminate.
      destruct (recordWalk_shift _ _ _ _ _ _ E) as (r1 & -> & Hall).
      destruct (IH _ _ _ _ H) as (subs & -> & HF).
      exists (((c, pushed) :: r1) :: subs). split.
      * simpl. by rewrite <- app_assoc.
      * constructor; [|exact HF].
        exists pushed, after, r1. cbn [fst snd]. rewrite Hid.
        repeat split; try done; apply (Hall []).
    + rewrite filter_cons_False by (simpl; congruence). eauto.
Qed.

End RecordedWalk.

Section SortedChildren.

Variable g : gmap nat LayerHierarchy.t.
Variable h : nat.
Variable node : LayerHierarchy.t.
Hypothesis Hh : g !! h = Some node.

Lemma sortChildrenByZOrder_lookup :
  sortChildrenByZOrder g h !! h
  = Some (LayerHierarchy.mk (LayerHierarchy.mLayer node)
            (sortByZ g (LayerHierarchy.mChildren node))
            (LayerHierarchy.mParent node) (LayerHierarchy.mRelativeParent node)).
Proof. unfold sortChildrenByZOrder. rewrite Hh. apply lookup_insert_eq. Qed.

Lemma sortChildrenByZOrder_childLayer c :
  childLayer (sortChildrenByZOrder g h) c = childLayer g c.
Proof.
  unfold childLayer. destruct (decide (c = h)) as [->|Hne].
  - by rewrite sortChildrenByZOrder_lookup, Hh.
  - unfold sortChildrenByZOrder. rewrite Hh. by rewrite lookup_insert_ne.
Qed.

End SortedChildren.

Lemma visibleKind_visible (e : nat * Variant) :
  visibleKind (snd e) = true <-> visible e.
Proof.
  unfold visibleKind, visible. rewrite negb_true_iff, bool_decide_eq_false. done.
Qed.

(** C7.  Take any node [h] of the graph, reached by any path, and a visitor
    that descends from it and records every visit.  Whenever
    [traverseInZOrder] returns, its log is the visit of [h] followed by one
    block for each child of [h] that is not Detached, Attached and Relative
    children alike; each block starts with the visit of that child, by the
    kind of its edge, and is itself the log of [traverseInZOrder] called on
    the child.  The blocks come in the order of the stable sort of these
    children by their declared z: this order is a rearrangement of the
    children, ascending in z whatever the order of insertion, and children of
    equal z keep their order of insertion.  It is the order in which
    [sortChildrenByZOrder] leaves these children in the node.  On a
    well-formed graph that no edge leads back up the walk does return, for
    every recursion depth from some depth on. *)
Theorem traverseInZOrder_visits_in_z_order :
  forall (g : gmap nat LayerHierarchy.t)
         (descends : nat -> TraversalPath.t -> bool)
         (h : nat) (node : LayerHierarchy.t) (p : TraversalPath.t),
    g !! h = Some node ->
    descends h p = true ->
    let siblings := filter visible (LayerHierarchy.mChildren node) in
    let inOrder := sortByZ g siblings in
    (forall (fuel : nat) (p' : TraversalPath.t) (log : list (nat * TraversalPath.t)),
       traverseInZOrder g (recordVisitor descends) fuel h p [] = Finished (p', log) ->
       exists sublogs,
         log = (h, p) :: concat sublogs /\
         Forall2
           (fun e sub =>
              exists fuelc q q' rest,
                sub = (fst e, q) :: rest /\
                TraversalPath.variant q = snd e /\
                childId g (fst e) = Finished (TraversalPath.id q) /\
                traverseInZOrder g (recordVisitor descends) fuelc (fst e) q []
                  = Finished (q', sub))
           inOrder sublogs) /\
    (forall rank : nat -> nat,
       closed UNASSIGNED_LAYER_ID g -> acyclic g rank ->
       exists fuel, forall fuel', fuel <= fuel' ->
         exists p' log,
           traverseInZOrder g (recordVisitor descends) fuel' h p [] = Finished (p', log)) /\
    inOrder ≡ₚ siblings /\
    StronglySorted (fun e e' => (childZ g e <= childZ g e')%Z) inOrder /\
    (forall k : Z,
        filter (fun e => childZ g e = k) inOrder
        = filter (fun e => childZ g e = k) siblings) /\
    (exists node',
        sortChildrenByZOrder g h !! h = Some node' /\
        filter visible (LayerHierarchy.mChildren node') = inOrder).
Proof.
  intros g descends h node p Hh Hd siblings inOrder.
  split; [|split; [|split; [apply sortByZ_Permutation|split; [apply sortByZ_sorted|split;
                   [intros k; apply sortByZ_stable|]]]]].
  - intros fuel p' log Hlog. unfold traverseInZOrder in Hlog.
    change (fun v => negb (bool_decide (v = Detached))) with visibleKind in Hlog.
    destruct fuel as [|fuel]; [discriminate|].
    rewrite walk_S, Hh in Hlog. cbn [recordVisitor] in Hlog. rewrite Hd in Hlog.
    destruct (recordChildren_logs g descends visibleKind (sortByZ g) fuel _ _ _ _ _ Hlog)
      as (sublogs & -> & HF).
    exists sublogs. split; [done|].
    rewrite (list_filter_iff _ visible) in HF by apply visibleKind_visible.
    rewrite sortByZ_filter in HF.
    eapply Forall2_impl; [exact HF|].
    intros e sub (q & q' & rest & H1 & H2 & H3 & H4). exists fuel, q, q', rest. auto.
  - intros rank Hcl Hac. exists (S (rank h)). intros fuel' Hle.
    apply (walk_terminates_acyclic g (recordVisitor descends) visibleKind (sortByZ g)
             rank (sortByZ_Permutation g) Hcl Hac fuel' h p [] (mk_is_Some _ _ Hh)).
    lia.
  - eexists. split; [by apply sortChildrenByZOrder_lookup|].
    cbn [LayerHierarchy.mChildren]. apply sortByZ_filter.
Qed.

(** ** Back-references *)

(** C10. A node has at most one structural-parent back-reference and at most
    one relative-parent back-reference, each being a single nullable pointer,
    and a node that has just been constructed has neither.  This does not
    limit the edges that lead to a node: in the sample graph node 4 is a
    child of node 1 and of node 2, and still has one back-reference of each
    kind. *)
Theorem LayerHierarchy_back_references :
  (forall node : LayerHierarchy.t,
      length (option_list (LayerHierarchy.mParent node)) <= 1 /\
      length (option_list (LayerHierarchy.mRelativeParent node)) <= 1) /\
  (forall layer : option RequestedLayerState.t,
      LayerHierarchy.mParent (new_LayerHierarchy layer) = None /\
      LayerHierarchy.mRelativeParent (new_LayerHierarchy layer) = None /\
      LayerHierarchy.mChildren (new_LayerHierarchy layer) = []) /\
  (exists node,
      relativeGraph !! 4 = Some node /\
      edgeCount relativeGraph 1 4 Detached = 1 /\
      edgeCount relativeGraph 2 4 Relative = 1 /\
      option_list (LayerHierarchy.mParent node) = [1] /\
      option_list (LayerHierarchy.mRelativeParent node) = [2]).
Proof.
  split; [|split].
  - intros node. split.
    + destruct (LayerHierarchy.mParent node); simpl; lia.
    + destruct (LayerHierarchy.mRelativeParent node); simpl; lia.
  - intros layer. repeat split.
  - eexists. repeat split; reflexivity.
Qed.

(** ** Injection outcomes *)

(** The five constants of the header have pairwise distinct values, which
    fill the range from -1 to 3. *)
Lemma InputEventInjection_value_range (r : InputEventInjection) :
  (-1 <= InputEventInjection_value r <= 3)%Z.
Proof. destruct r; simpl; lia. Qed.

Lemma InputEventInjection_value_inj (r r' : InputEventInjection) :
  InputEventInjection_value r = InputEventInjection_value r' -> r = r'.
Proof. destruct r, r'; simpl; intros H; try reflexivity; discriminate H. Qed.

(** ** Further properties of path equality *)

(** [operator==] on traversal paths is an equivalence relation: it is
    reflexive, symmetric and transitive, as a key comparison has to be. *)
Theorem TraversalPath_eqb_equivalence :
  (forall a : TraversalPath.t, TraversalPath_eqb a a = true) /\
  (forall a b : TraversalPath.t, TraversalPath_eqb a b = TraversalPath_eqb b a) /\
  (forall a b c : TraversalPath.t,
      TraversalPath_eqb a b = true -> TraversalPath_eqb b c = true ->
      TraversalPath_eqb a c = true).
Proof.
  assert (forall a b : TraversalPath.t,
             TraversalPath_eqb a b = true <->
             TraversalPath.id a = TraversalPath.id b /\
             TraversalPath.mirrorRootIds a = TraversalPath.mirrorRootIds b) as Hspec.
  { intros a b. unfold TraversalPath_eqb.
    rewrite andb_true_iff, Z.eqb_eq, SmallVector_eqb_eq. reflexivity. }
  split; [|split].
  - intros a. by apply Hspec.
  - intros a b. apply eq_true_iff_eq. rewrite !Hspec.
    split; intros [-> ->]; done.
  - intros a b c Hab Hbc. apply Hspec in Hab as [? ?]. apply Hspec in Hbc as [? ?].
    apply Hspec. split; congruence.
Qed.

(** [operator==] says nothing about the two predicates of a path: whatever
    values [hasRelZLoop()] and [isRelative()] are to take, every path has an
    equal path on which they take them. *)
Theorem TraversalPath_eqb_ignores_predicates :
  forall (p : TraversalPath.t) (loop relative : bool),
    exists q : TraversalPath.t,
      TraversalPath_eqb p q = true /\
      hasLoop q = loop /\
      isRelative q = relative.
Proof.
  intros p loop relative.
  exists (TraversalPath.mk (TraversalPath.id p) (TraversalPath.variant p)
            (TraversalPath.mirrorRootIds p)
            (if relative then [TraversalPath.id p] else [])
            (if loop
             then (if (UNASSIGNED_LAYER_ID =? 0)%Z then 1%Z else 0%Z)
             else UNASSIGNED_LAYER_ID)).
  split; [|split].
  - unfold TraversalPath_eqb. simpl. rewrite Z.eqb_refl. simpl.
    by apply SmallVector_eqb_eq.
  - unfold TraversalPath_hasRelZLoop. simpl. destruct loop.
    + apply negb_true_iff, Z.eqb_neq.
      destruct (UNASSIGNED_LAYER_ID =? 0)%Z eqn:E;
        [apply Z.eqb_eq in E|apply Z.eqb_neq in E]; lia.
    + by rewrite Z.eqb_refl.
  - by destruct relative.
Qed.

(** ** Injection outcome codes *)

(** The five outcome constants take exactly the values from -1 to 3, each
    value once; success is the only outcome with the value 0 and pending the
    only one with a negative value. *)
Theorem InputEventInjection_codes :
  (forall z : Z,
      (-1 <= z <= 3)%Z <-> exists r, InputEventInjection_value r = z) /\
  (forall r r', InputEventInjection_value r = InputEventInjection_value r' <-> r = r') /\
  (forall r, InputEventInjection_value r = 0%Z <-> r = INPUT_EVENT_INJECTION_SUCCEEDED) /\
  (forall r, (InputEventInjection_value r < 0)%Z <-> r = INPUT_EVENT_INJECTION_PENDING).
Proof.
  split; [|split; [|split]].
  - intros z. split.
    + intros Hz.
      assert (z = -1 \/ z = 0 \/ z = 1 \/ z = 2 \/ z = 3)%Z as Hcases by lia.
      destruct Hcases as [->|[->|[->|[->| ->]]]];
        [exists INPUT_EVENT_INJECTION_PENDING
        |exists INPUT_EVENT_INJECTION_SUCCEEDED
        |exists INPUT_EVENT_INJECTION_PERMISSION_DENIED
        |exists INPUT_EVENT_INJECTION_FAILED
        |exists INPUT_EVENT_INJECTION_TIMED_OUT]; reflexivity.
    + intros [r <-]. destruct r; simpl; lia.
  - intros r r'. split; [|by intros ->].
    destruct r, r'; simpl; intros H; try reflexivity; discriminate H.
  - intros r. split; [|by intros ->].
    destruct r; simpl; intros H; try reflexivity; discriminate H.
  - intros r. split; [|by intros ->].
    destruct r; simpl; intros H; try reflexivity; lia.
Qed.


(** ** What [hasRelZLoop] reports *)

(** The answer of [hasRelZLoop] can be trusted: it returns true exactly when
    it wrote an id other than [UNASSIGNED_LAYER_ID] to its out-parameter, and
    that id then belongs to a layer that the graph leads back to through a
    Relative edge. *)
Theorem hasRelZLoop_sound :
  forall (g : gmap nat LayerHierarchy.t) (fuel h : nat) (found : bool) (out : Z),
    hasRelZLoop UNASSIGNED_LAYER_ID g fuel h = Finished (found, out) ->
    (found = true <-> out <> UNASSIGNED_LAYER_ID) /\
    (found = false -> out = UNASSIGNED_LAYER_ID) /\
    (found = true -> onRelativeCycle g out).
Proof.
  intros g fuel h found out H.
  unfold hasRelZLoop, traverse_from_root, traverse in H.
  destruct (walk g (relZLoopVisitor UNASSIGNED_LAYER_ID) (fun _ => true)
              (fun children => children) fuel h
              (ROOT_TRAVERSAL_ID UNASSIGNED_LAYER_ID) UNASSIGNED_LAYER_ID)
    as [[p' o]| |] eqn:E; try discriminate.
  injection H as <- <-.
  pose proof (loopWalk_out_on_cycle g fuel h p' o E) as Hcyc.
  rewrite negb_true_iff, negb_false_iff, Z.eqb_neq, Z.eqb_eq.
  repeat split; tauto.
Qed.

(** No false alarm: on a well-formed graph whose nodes refer to pairwise
    distinct records and none of whose edges leads back up, [hasRelZLoop]
    returns false and leaves [UNASSIGNED_LAYER_ID] in the out-parameter. *)
Theorem hasRelZLoop_acyclic :
  forall (g : gmap nat LayerHierarchy.t) (rank : nat -> nat) (h fuel : nat),
    closed UNASSIGNED_LAYER_ID g ->
    acyclic g rank ->
    uniqueIds g ->
    is_Some (g !! h) ->
    rank h < fuel ->
    hasRelZLoop UNASSIGNED_LAYER_ID g fuel h = Finished (false, UNASSIGNED_LAYER_ID).
Proof.
  intros g rank h fuel Hcl Hac Huniq Hh Hfuel.
  destruct (walk_terminates_acyclic g (relZLoopVisitor UNASSIGNED_LAYER_ID)
              (fun _ => true) (fun children => children) rank
              (fun children => Permutation_refl children) Hcl Hac fuel h
              (ROOT_TRAVERSAL_ID UNASSIGNED_LAYER_ID) UNASSIGNED_LAYER_ID Hh Hfuel)
    as (p' & out & Hwalk).
  unfold hasRelZLoop, traverse_from_root, traverse. rewrite Hwalk.
  destruct (loopWalk_out_on_cycle g fuel h _ out Hwalk) as [->|Hcyc].
  { by rewrite Z.eqb_refl. }
  exfalso. by apply (acyclic_no_relative_cycle g rank) in Hcyc.
Qed.


(** ** The path along a route *)

Lemma Route_resolves (g : gmap nat LayerHierarchy.t) h es t :
  closed UNASSIGNED_LAYER_ID g -> Route g h es t ->
  Forall (fun e => exists l, childLayer g (fst e) = Some l /\
                             RequestedLayerState.id l <> UNASSIGNED_LAYER_ID) es.
Proof.
  intros Hcl. induction 1 as [|h node c v es t Hh Hc HR IH]; constructor; [|exact IH].
  exact (Hcl h node c v Hh Hc).
Qed.

Lemma pushAlong_stacks_aux (g : gmap nat LayerHierarchy.t) es :
  Forall (fun e => exists l, childLayer g (fst e) = Some l /\
                             RequestedLayerState.id l <> UNASSIGNED_LAYER_ID) es ->
  forall p,
    TraversalPath.relativeRootIds (pushAlong g p es)
    = TraversalPath.relativeRootIds p ++ edgeIds g Relative es /\
    TraversalPath.mirrorRootIds (pushAlong g p es)
    = TraversalPath.mirrorRootIds p ++ edgeIds g Mirror es.
Proof.
  induction 1 as [|[c v] es [l [Hl _]] _ IH]; intros p.
  - unfold edgeIds. simpl. by rewrite !app_nil_r.
  - cbn [pushAlong]. simpl in Hl. rewrite Hl.
    destruct (IH (snd (ScopedAddToTraversalPath_push p (RequestedLayerState.id l) v)))
      as [-> ->].
    unfold edgeIds. cbn [omap list_omap fst snd]. rewrite Hl.
    destruct v; simpl; rewrite <- ?app_assoc; done.
Qed.

Lemma edgeIds_not_nil (g : gmap nat LayerHierarchy.t) v es :
  Forall (fun e => exists l, childLayer g (fst e) = Some l /\
                             RequestedLayerState.id l <> UNASSIGNED_LAYER_ID) es ->
  edgeIds g v es <> [] <-> exists c, (c, v) ∈ es.
Proof.
  induction 1 as [|[c k] es [l [Hl _]] _ IH].
  - split; [done|]. intros [c Hc]. by apply elem_of_nil in Hc.
  - unfold edgeIds in *. cbn [omap list_omap fst snd]. simpl in Hl. rewrite Hl.
    destruct (decide (k = v)) as [->|Hne]; simpl.
    + split; [|done]. intros _. exists c. by left.
    + rewrite IH. split.
      * intros [c0 Hc0]. exists c0. by right.
      * intros [c0 Hc0]. apply elem_of_cons in Hc0 as [[= -> ->]|Hc0]; [done|eauto].
Qed.

(** Along a route of a well-formed graph the two stacks of the path grow by
    exactly the ids that the Relative edges, respectively the Mirror edges,
    of the route lead to, in the order of the route; so a path that starts
    with an empty relative-root stack [isRelative()] exactly when some edge
    of the route is a Relative edge. *)
Theorem pushAlong_stacks :
  forall (g : gmap nat LayerHierarchy.t) (h t : nat) (es : list (nat * Variant))
         (p : TraversalPath.t),
    closed UNASSIGNED_LAYER_ID g ->
    Route g h es t ->
    TraversalPath.relativeRootIds (pushAlong g p es)
    = TraversalPath.relativeRootIds p ++ edgeIds g Relative es /\
    TraversalPath.mirrorRootIds (pushAlong g p es)
    = TraversalPath.mirrorRootIds p ++ edgeIds g Mirror es /\
    (isRelative p = false ->
     (isRelative (pushAlong g p es) = true <-> exists c, (c, Relative) ∈ es)).
Proof.
  intros g h t es p Hcl HR.
  pose proof (Route_resolves g h es t Hcl HR) as Hres.
  destruct (pushAlong_stacks_aux g es Hres p) as [Hrel Hmir].
  split; [exact Hrel|split; [exact Hmir|]].
  intros Hp. unfold isRelative in *. rewrite Hrel.
  destruct (TraversalPath.relativeRootIds p); [|discriminate]. simpl.
  rewrite <- (edgeIds_not_nil g Relative es Hres).
  destruct (edgeIds g Relative es); split; congruence.
Qed.

(** The duplicate marker of a path is exact when the relative-root stack has
    a repeated id exactly if the marker is set. *)
Lemma push_keeps_marker_exact (p : TraversalPath.t) (i : Z) (v : Variant) :
  (hasLoop p = true <-> ~ NoDup (TraversalPath.relativeRootIds p)) ->
  i <> UNASSIGNED_LAYER_ID ->
  let q := snd (ScopedAddToTraversalPath_push p i v) in
  hasLoop q = true <-> ~ NoDup (TraversalPath.relativeRootIds q).
Proof.
  intros Hp Hi q. subst q. rewrite hasLoop_true in *.
  cbn [snd ScopedAddToTraversalPath_push TraversalPath.invalidRelativeRootId
       TraversalPath.relativeRootIds].
  destruct v; try exact Hp.
  destruct (contains (TraversalPath.relativeRootIds p) i) eqn:C.
  - apply contains_elem in C. split; [|done]. intros _ Hnd.
    apply NoDup_app in Hnd as (_ & Hdisj & _).
    apply (Hdisj i C). by apply list_elem_of_singleton.
  - apply contains_not_elem in C. rewrite Hp. apply not_iff_compat.
    rewrite NoDup_app. split; [|tauto]. intros Hnd. split; [exact Hnd|split].
    + intros x Hx Hx'. apply list_elem_of_singleton in Hx'. by subst x.
    + apply NoDup_singleton.
Qed.

Lemma pushAlong_keeps_marker_exact (g : gmap nat LayerHierarchy.t) es :
  Forall (fun e => exists l, childLayer g (fst e) = Some l /\
                             RequestedLayerState.id l <> UNASSIGNED_LAYER_ID) es ->
  forall p,
    (hasLoop p = true <-> ~ NoDup (TraversalPath.relativeRootIds p)) ->
    hasLoop (pushAlong g p es) = true
    <-> ~ NoDup (TraversalPath.relativeRootIds (pushAlong g p es)).
Proof.
  induction 1 as [|[c v] es [l [Hl Hne]] _ IH]; intros p Hp; [exact Hp|].
  cbn [pushAlong]. simpl in Hl. rewrite Hl. apply IH.
  by apply push_keeps_marker_exact.
Qed.

(** The path that a walk from [ROOT_TRAVERSAL_ID] has after following a
    route of a well-formed graph is flagged, [hasRelZLoop()], exactly when
    two Relative edges of the route lead to the same id. *)
Theorem pushAlong_flags_duplicates :
  forall (g : gmap nat LayerHierarchy.t) (h t : nat) (es : list (nat * Variant)),
    closed UNASSIGNED_LAYER_ID g ->
    Route g h es t ->
    hasLoop (pushAlong g (ROOT_TRAVERSAL_ID UNASSIGNED_LAYER_ID) es) = true
    <-> ~ NoDup (edgeIds g Relative es).
Proof.
  intros g h t es Hcl HR.
  pose proof (Route_resolves g h es t Hcl HR) as Hres.
  rewrite (pushAlong_keeps_marker_exact g es Hres).
  - by rewrite (proj1 (pushAlong_stacks_aux g es Hres _)).
  - simpl. split.
    + intros H. apply hasLoop_true in H. by simpl in H.
    + intros H. exfalso. apply H. constructor.
Qed.

(** The reserved id defeats the detection: pushing [UNASSIGNED_LAYER_ID] as
    a Relative edge when it is already on the relative-root stack leaves the
    path unflagged, whatever the marker was before, although the stack now
    holds the id twice. *)
Theorem push_unassigned_id_unflagged :
  forall p : TraversalPath.t,
    UNASSIGNED_LAYER_ID ∈ TraversalPath.relativeRootIds p ->
    let q := snd (ScopedAddToTraversalPath_push p UNASSIGNED_LAYER_ID Relative) in
    hasLoop q = false /\ ~ NoDup (TraversalPath.relativeRootIds q).
Proof.
  intros p Hin q. subst q. split.
  - apply hasLoop_false.
    cbn [snd ScopedAddToTraversalPath_push TraversalPath.invalidRelativeRootId].
    apply contains_elem in Hin. by rewrite Hin.
  - cbn [snd ScopedAddToTraversalPath_push TraversalPath.relativeRootIds].
    intros Hnd. apply NoDup_app in Hnd as (_ & Hdisj & _).
    apply (Hdisj _ Hin). by apply list_elem_of_singleton.
Qed.

(** ** The paths a visitor sees *)

Lemma push_sameFrame (p q : TraversalPath.t) (i : Z) (v : Variant) :
  sameFrame p q ->
  sameFrame (snd (ScopedAddToTraversalPath_push p i v))
            (snd (ScopedAddToTraversalPath_push q i v)).
Proof.
  intros (Hi & Hv & Hm & Hr). unfold sameFrame.
  cbn [snd ScopedAddToTraversalPath_push TraversalPath.id TraversalPath.variant
       TraversalPath.mirrorRootIds TraversalPath.relativeRootIds].
  rewrite Hm, Hr. done.
Qed.

Section WalkInvariantEntered.

Variable g : gmap nat LayerHierarchy.t.
Context {St : Type}.
Variable visitor : Visitor St.
Variable enters : Variant -> bool.
Variable order : list (nat * Variant) -> list (nat * Variant).
Variable Jp : nat -> TraversalPath.t -> Prop.
Variable Js : St -> Prop.
Hypothesis Horder : forall children, order children ≡ₚ children.
Hypothesis Hvisit :
  forall h node p s, g !! h = Some node -> Jp h p -> Js s -> Js (snd (visitor h node p s)).
Hypothesis Hpush :
  forall h node c v l p,
    g !! h = Some node -> (c, v) ∈ LayerHierarchy.mChildren node ->
    enters v = true -> childLayer g c = Some l -> Jp h p ->
    Jp c (snd (ScopedAddToTraversalPath_push p (RequestedLayerState.id l) v)).
Hypothesis Hpop :
  forall h p m, Jp h p -> Jp h (withMarker m p).

(** As [walk_invariant], for an invariant of the path that only the edges
    the walk enters have to keep. *)
Lemma walk_invariant_entered fuel :
  forall h p s p' s',
    walk g visitor enters order fuel h p s = Finished (p', s') ->
    Jp h p -> Js s -> Js s'.
Proof.
  induction fuel as [|fuel IH]; intros h p s p' s' H HJp HJs; [discriminate|].
  rewrite walk_S in H.
  destruct (g !! h) as [node|] eqn:Hh; [|discriminate].
  pose proof (Hvisit h node p s Hh HJp HJs) as Hv.
  destruct (visitor h node p s) as [[|] s1]; cbn [snd] in Hv; [|congruence].
  clear HJs s. revert H Hv.
  assert (forall e, e ∈ order (LayerHierarchy.mChildren node) ->
                    e ∈ LayerHierarchy.mChildren node)
    as Hsub by (intros e He; by rewrite <- (Horder (LayerHierarchy.mChildren node))).
  revert Hsub. generalize (order (LayerHierarchy.mChildren node)) as children.
  intros children. revert p HJp s1.
  induction children as [|[c v] rest IHc]; intros p HJp s Hsub H HJs;
    cbn [forEachChild] in H.
  - congruence.
  - assert (forall e, e ∈ rest -> e ∈ LayerHierarchy.mChildren node) as Hrest
      by (intros e He; apply Hsub; by right).
    destruct (enters v) eqn:Een; [|eauto].
    unfold childId in H.
    destruct (childLayer g c) as [l|] eqn:El; [|discriminate].
    pose proof (pop_push p) as Hpp.
    specialize Hpp with (layerId := RequestedLayerState.id l) (v := v).
    assert ((c, v) ∈ LayerHierarchy.mChildren node) as Hc by (apply Hsub; by left).
    pose proof (Hpush h node c v l p Hh Hc Een El HJp) as HJq.
    destruct (ScopedAddToTraversalPath_push p (RequestedLayerState.id l) v)
      as [scope pushed].
    cbn [fst snd] in *.
    destruct (walk g visitor enters order fuel c pushed s) as [[after s1]| |] eqn:E;
      try discriminate.
    rewrite (Hpp after (walk_frame _ _ _ _ _ _ _ _ _ _ E)) in H.
    eapply (IHc _ (Hpop h p _ HJp)); eauto.
Qed.

End WalkInvariantEntered.

Lemma pushAlong_snoc (g : gmap nat LayerHierarchy.t) es c v l :
  Forall (fun e => is_Some (childLayer g (fst e))) es ->
  childLayer g c = Some l ->
  forall p,
    pushAlong g p (es ++ [(c, v)])
    = snd (ScopedAddToTraversalPath_push (pushAlong g p es) (RequestedLayerState.id l) v).
Proof.
  intros Hres Hl. induction Hres as [|[c0 v0] es [l0 Hl0] _ IH]; intros p.
  - simpl. by rewrite Hl.
  - simpl in *. rewrite Hl0. apply IH.
Qed.

(** Every path that a walk hands to its visitor describes a chain of edges
    from the node the walk started at to the node visited: its id, its kind
    and its two stacks are those of the start path with the edges of a route
    to that node pushed one after the other, and every edge of the route is
    of a kind the walk enters.  For [traverseInZOrder] no edge of the route is
    Detached: nothing is visited through a Detached edge, neither the child
    nor what hangs below it. *)
Theorem visits_follow_routes :
  forall (g : gmap nat LayerHierarchy.t) (descends : nat -> TraversalPath.t -> bool)
         (inZOrder : bool) (fuel h : nat) (p p' : TraversalPath.t)
         (log : list (nat * TraversalPath.t)),
    (if inZOrder
     then traverseInZOrder g (recordVisitor descends) fuel h p []
     else traverse g (recordVisitor descends) fuel h p []) = Finished (p', log) ->
    forall x q, (x, q) ∈ log ->
      exists es,
        Route g h es x /\
        sameFrame q (pushAlong g p es) /\
        Forall (fun e => inZOrder = true -> snd e <> Detached) es.
Proof.
  intros g descends inZOrder fuel h p p' log H.
  set (enters := fun k => if inZOrder then visibleKind k else true).
  set (order := fun cs => if inZOrder then sortByZ g cs else cs).
  assert (walk g (recordVisitor descends) enters order fuel h p [] = Finished (p', log))
    as Hw by (subst enters order; by destruct inZOrder).
  assert (forall children, order children ≡ₚ children) as Horder.
  { intros cs. subst order. destruct inZOrder; [apply sortByZ_Permutation|done]. }
  clear H.
  set (J := fun (x : nat) (q : TraversalPath.t) =>
              exists es, Route g h es x /\ sameFrame q (pushAlong g p es) /\
                         Forall (fun e => enters (snd e) = true) es /\
                         Forall (fun e => is_Some (childLayer g (fst e))) es).
  assert (forall x q, (x, q) ∈ log -> J x q) as HJ.
  { eapply (walk_invariant_entered g (recordVisitor descends) enters order J
              (fun s => forall x q, (x, q) ∈ s -> J x q) Horder); [| | |exact Hw| |].
    - intros h0 node p0 s Hh HJp HJs x q Hx. cbn [recordVisitor snd] in Hx.
      apply elem_of_app in Hx as [Hx|Hx]; [by apply HJs|].
      apply list_elem_of_singleton in Hx. by injection Hx as -> ->.
    - intros h0 node c v l p0 Hh Hc Een Hl (es & HR & Hf & Hen & Hres).
      exists (es ++ [(c, v)]). split; [eapply Route_snoc; eauto|].
      split; [rewrite (pushAlong_snoc g es c v l Hres Hl); by apply push_sameFrame|].
      split; apply Forall_app; split; try assumption; repeat constructor; eauto.
    - intros h0 p0 m (es & HR & Hf & Hen & Hres). exists es. repeat split; try assumption;
        destruct Hf as (? & ? & ? & ?); assumption.
    - exists []. repeat split; constructor.
    - intros x q Hx. by apply elem_of_nil in Hx. }
  intros x q Hx. destruct (HJ x q Hx) as (es & HR & Hq & Hen & _).
  exists es. repeat split; try (destruct Hq as (? & ? & ? & ?); assumption).
  eapply Forall_impl; [exact Hen|]. intros e He ->. subst enters. cbn beta in He.
  by apply visibleKind_visible in He.
Qed.

(** ** Further properties of the z-order sort *)

Lemma sortByZ_of_sorted (g : gmap nat LayerHierarchy.t) l :
  StronglySorted (fun e e' => (childZ g e <= childZ g e')%Z) l -> sortByZ g l = l.
Proof.
  induction l as [|e l IH]; [done|]. intros Hs.
  apply StronglySorted_cons in Hs as [Hall Hs].
  unfold sortByZ in *. simpl. rewrite (IH Hs). by apply insertByZ_front.
Qed.

Lemma insertByZ_ext (g g' : gmap nat LayerHierarchy.t) e l :
  (forall x, childZ g' x = childZ g x) -> insertByZ g' e l = insertByZ g e l.
Proof.
  intros Hz. induction l as [|e' l IH]; [done|].
  simpl. rewrite !Hz, IH. done.
Qed.

Lemma sortByZ_ext (g g' : gmap nat LayerHierarchy.t) l :
  (forall x, childZ g' x = childZ g x) -> sortByZ g' l = sortByZ g l.
Proof.
  intros Hz. induction l as [|e l IH]; [done|].
  unfold sortByZ in *. simpl. rewrite IH. by apply insertByZ_ext.
Qed.

Lemma sortChildrenByZOrder_childZ (g : gmap nat LayerHierarchy.t) h e :
  childZ (sortChildrenByZOrder g h) e = childZ g e.
Proof.
  unfold childZ. destruct (g !! h) as [node|] eqn:Hh.
  - by rewrite (sortChildrenByZOrder_childLayer g h node Hh).
  - unfold sortChildrenByZOrder. by rewrite Hh.
Qed.

(** [sortChildrenByZOrder] touches nothing but the order of the children of
    the node it is called on: a node that is not in the graph leaves the
    graph as it is; every other node is untouched; the node itself keeps its
    record and its two back-references, and its children are rearranged, none
    lost and none added.  Sorting a second time changes nothing. *)
Theorem sortChildrenByZOrder_frame :
  forall (g : gmap nat LayerHierarchy.t) (h : nat),
    (g !! h = None -> sortChildrenByZOrder g h = g) /\
    (forall x, x <> h -> sortChildrenByZOrder g h !! x = g !! x) /\
    (forall node, g !! h = Some node ->
       exists node',
         sortChildrenByZOrder g h !! h = Some node' /\
         LayerHierarchy.mLayer node' = LayerHierarchy.mLayer node /\
         LayerHierarchy.mParent node' = LayerHierarchy.mParent node /\
         LayerHierarchy.mRelativeParent node' = LayerHierarchy.mRelativeParent node /\
         LayerHierarchy.mChildren node' ≡ₚ LayerHierarchy.mChildren node) /\
    sortChildrenByZOrder (sortChildrenByZOrder g h) h = sortChildrenByZOrder g h.
Proof.
  intros g h. split; [|split; [|split]].
  - intros Hh. unfold sortChildrenByZOrder. by rewrite Hh.
  - intros x Hx. unfold sortChildrenByZOrder.
    destruct (g !! h); [by rewrite lookup_insert_ne|done].
  - intros node Hh. eexists. split; [by apply sortChildrenByZOrder_lookup|].
    repeat split. simpl. apply sortByZ_Permutation.
  - destruct (g !! h) as [node|] eqn:Hh.
    + unfold sortChildrenByZOrder at 1.
      rewrite (sortChildrenByZOrder_lookup g h node Hh).
      cbn [LayerHierarchy.mLayer LayerHierarchy.mChildren LayerHierarchy.mParent
           LayerHierarchy.mRelativeParent].
      rewrite (sortByZ_ext g (sortChildrenByZOrder g h))
        by apply sortChildrenByZOrder_childZ.
      rewrite sortByZ_of_sorted by apply sortByZ_sorted.
      unfold sortChildrenByZOrder. rewrite Hh. by rewrite insert_insert_eq.
    + unfold sortChildrenByZOrder. rewrite Hh. by rewrite Hh.
Qed.

(** Children that are already in ascending z order are left exactly as they
    are: the sort does not reorder children with equal z. *)
Theorem sortChildrenByZOrder_sorted_noop :
  forall (g : gmap nat LayerHierarchy.t) (h : nat) (node : LayerHierarchy.t),
    g !! h = Some node ->
    StronglySorted (fun e e' => (childZ g e <= childZ g e')%Z)
      (LayerHierarchy.mChildren node) ->
    sortChildrenByZOrder g h = g.
Proof.
  intros g h node Hh Hs. unfold sortChildrenByZOrder. rewrite Hh.
  rewrite (sortByZ_of_sorted g _ Hs). apply insert_id. by destruct node.
Qed.


(** ** Every route is walked *)

Lemma NoDup_omap_inj {A B : Type} (f : A -> option B) (l : list A) :
  NoDup (omap f l) ->
  forall x y b, x ∈ l -> y ∈ l -> f x = Some b -> f y = Some b -> x = y.
Proof.
  induction l as [|a l IH]; intros Hnd x y b Hx Hy Hfx Hfy.
  { by apply elem_of_nil in Hx. }
  cbn [omap list_omap] in Hnd.
  assert (forall z, z ∈ l -> f z = Some b -> b ∈ omap f l) as Hin.
  { intros z Hz Hfz. apply list_elem_of_omap. eauto. }
  apply elem_of_cons in Hx as [->|Hx]; apply elem_of_cons in Hy as [->|Hy];
    try reflexivity.
  - rewrite Hfx in Hnd. apply NoDup_cons in Hnd as [Hnot _].
    exfalso. apply Hnot. eauto.
  - rewrite Hfy in Hnd. apply NoDup_cons in Hnd as [Hnot _].
    exfalso. apply Hnot. eauto.
  - destruct (f a); [apply NoDup_cons in Hnd as [_ Hnd]|]; eauto.
Qed.

Lemma uniqueIds_check (g : gmap nat LayerHierarchy.t) :
  NoDup (allIds g) -> uniqueIds g.
Proof.
  intros Hnd c c' l l' Hl Hl' Hid. unfold childLayer in Hl, Hl'.
  destruct (g !! c) as [node|] eqn:Hc; [|discriminate].
  destruct (g !! c') as [node'|] eqn:Hc'; [|discriminate].
  simpl in Hl, Hl'.
  assert ((c, node) = (c', node')) as E; [|congruence].
  eapply (NoDup_omap_inj _ _ Hnd _ _ (RequestedLayerState.id l)).
  - by apply elem_of_map_to_list.
  - by apply elem_of_map_to_list.
  - simpl. by rewrite Hl.
  - simpl. rewrite Hl'. simpl. congruence.
Qed.

Lemma sameFrame_trans (p q r : TraversalPath.t) :
  sameFrame p q -> sameFrame q r -> sameFrame p r.
Proof.
  intros (? & ? & ? & ?) (? & ? & ? & ?). unfold sameFrame.
  repeat split; congruence.
Qed.

Lemma pushAlong_sameFrame (g : gmap nat LayerHierarchy.t) es :
  forall p q, sameFrame p q -> sameFrame (pushAlong g p es) (pushAlong g q es).
Proof.
  induction es as [|[c v] es IH]; intros p q H; cbn [pushAlong]; [exact H|].
  destruct (childLayer g c) as [l|]; [|exact H].
  apply IH. by apply push_sameFrame.
Qed.

Section RoutesVisited.

Variable g : gmap nat LayerHierarchy.t.
Variable enters : Variant -> bool.
Variable order : list (nat * Variant) -> list (nat * Variant).
Hypothesis Horder : forall children, order children ≡ₚ children.

Local Abbreviation recordAll := (recordVisitor (fun _ _ => true)).

Lemma recordAll_keeps fuel h p log p' log' e :
  walk g recordAll enters order fuel h p log = Finished (p', log') ->
  e ∈ log -> e ∈ log'.
Proof.
  intros H He. destruct (recordWalk_shift g _ _ _ _ _ _ _ _ _ H) as (d & -> & _).
  apply elem_of_app. by left.
Qed.

Lemma recordAll_children_keep fuel children p log p' log' e :
  forEachChild g enters (walk g recordAll enters order fuel) children p log
    = Finished (p', log') ->
  e ∈ log -> e ∈ log'.
Proof.
  revert p log. induction children as [|[c v] rest IH]; intros p log H He;
    cbn [forEachChild] in H.
  - by injection H as <- <-.
  - destruct (enters v); [|eauto].
    destruct (childId g c) as [i| |]; try discriminate.
    destruct (ScopedAddToTraversalPath_push p i v) as [scope pushed].
    destruct (walk g recordAll enters order fuel c pushed log) as [[after log1]| |] eqn:E;
      try discriminate.
    eapply IH; [exact H|]. eapply recordAll_keeps; eauto.
Qed.

(** A walk whose visitor never prunes visits the end of every route made of
    edges it enters, by a path with the id, the kind and the stacks of that
    route. *)
Lemma routes_visited_aux es :
  forall h x, Route g h es x ->
  Forall (fun e => enters (snd e) = true) es ->
  forall fuel p log p' log',
    walk g recordAll enters order fuel h p log = Finished (p', log') ->
    exists q, (x, q) ∈ log' /\ sameFrame q (pushAlong g p es).
Proof.
  induction es as [|[c v] es IH]; intros h x HR Hen fuel p log p' log' H;
    (destruct fuel as [|fuel]; [discriminate|]); rewrite walk_S in H;
    (destruct (g !! h) as [node|] eqn:Hh; [|discriminate]);
    cbn [recordVisitor] in H.
  - inversion HR; subst. cbn [pushAlong]. exists p. split; [|apply sameFrame_refl].
    eapply recordAll_children_keep; [exact H|].
    apply elem_of_app. right. by left.
  - inversion HR as [|h0 node0 c0 v0 es0 t0 Hh0 Hc HR']; subst.
    rewrite Hh in Hh0. injection Hh0 as <-.
    apply Forall_cons in Hen as [Hv Hen]. simpl in Hv.
    revert H. generalize (log ++ [(h, p)]) as log0.
    assert ((c, v) ∈ order (LayerHierarchy.mChildren node)) as Hin
      by (by rewrite (Horder (LayerHierarchy.mChildren node))).
    revert Hin. generalize (order (LayerHierarchy.mChildren node)) as children.
    assert (sameFrame p p) as Hcur by apply sameFrame_refl.
    revert Hcur. generalize p at 1 3 as cur.
    intros cur Hcur children. revert cur Hcur.
    induction children as [|[c1 v1] rest IHc]; intros cur Hcur Hin log0 H.
    { by apply elem_of_nil in Hin. }
    cbn [forEachChild] in H.
    destruct (decide ((c1, v1) = (c, v))) as [Heq|Hne].
    + injection Heq as -> ->. rewrite Hv in H. unfold childId in H.
      cbn [pushAlong].
      destruct (childLayer g c) as [l|]; [|discriminate].
      pose proof (push_sameFrame cur p (RequestedLayerState.id l) v Hcur) as Hps.
      destruct (ScopedAddToTraversalPath_push cur (RequestedLayerState.id l) v)
        as [scope pushed].
      cbn [fst snd] in *.
      destruct (walk g recordAll enters order fuel c pushed log0)
        as [[after log1]| |] eqn:E; try discriminate.
      destruct (IH c x HR' Hen fuel pushed log0 after log1 E) as (q & Hq & Hf).
      exists q. split.
      * eapply recordAll_children_keep; [exact H|exact Hq].
      * eapply sameFrame_trans; [exact Hf|]. by apply pushAlong_sameFrame.
    + apply elem_of_cons in Hin as [Hin|Hin]; [congruence|].
      destruct (enters v1); [|eauto].
      destruct (childId g c1) as [i| |]; try discriminate.
      pose proof (pop_push cur) as Hpp. specialize Hpp with (layerId := i) (v := v1).
      destruct (ScopedAddToTraversalPath_push cur i v1) as [scope pushed].
      cbn [fst snd] in Hpp.
      destruct (walk g recordAll enters order fuel c1 pushed log0)
        as [[after log1]| |] eqn:E; try discriminate.
      rewrite (Hpp after (walk_frame _ _ _ _ _ _ _ _ _ _ E)) in H.
      eapply IHc; [|exact Hin|exact H].
      destruct Hcur as (? & ? & ? & ?). by repeat split.
Qed.

End RoutesVisited.

(** Nothing reachable is missed: when its visitor never prunes, a walk that
    returns has visited the end of every route from its start node whose
    edges are all of a kind it enters, and has handed the visitor a path with
    the id, the kind and the two stacks of that route.  So [traverse] visits a
    node by every route that leads to it, and [traverseInZOrder] by every
    route without a Detached edge. *)
Theorem routes_are_visited :
  forall (g : gmap nat LayerHierarchy.t) (inZOrder : bool)
         (fuel h x : nat) (es : list (nat * Variant)) (p p' : TraversalPath.t)
         (log : list (nat * TraversalPath.t)),
    (if inZOrder
     then traverseInZOrder g (recordVisitor (fun _ _ => true)) fuel h p []
     else traverse g (recordVisitor (fun _ _ => true)) fuel h p []) = Finished (p', log) ->
    Route g h es x ->
    Forall (fun e => inZOrder = true -> snd e <> Detached) es ->
    exists q, (x, q) ∈ log /\ sameFrame q (pushAlong g p es).
Proof.
  intros g inZOrder fuel h x es p p' log H HR Hen.
  destruct inZOrder.
  - eapply (routes_visited_aux g visibleKind (sortByZ g) (sortByZ_Permutation g));
      [exact HR| |exact H].
    eapply Forall_impl; [exact Hen|]. intros e He. apply visibleKind_visible. by apply He.
  - eapply (routes_visited_aux g (fun _ => true) (fun children => children)
              (fun children => Permutation_refl children)); [exact HR| |exact H].
    eapply Forall_impl; [exact Hen|]. done.
Qed.
End Properties.

(** * The properties on the sample graphs *)

Lemma sampleRank_le (h : nat) : sampleRank h <= 2.
Proof. unfold sampleRank. repeat (destruct h as [|h]; [lia|]). lia. Qed.

Lemma cycleGraph_closed : closed sampleUnassigned cycleGraph.
Proof. apply closed_check. vm_compute. reflexivity. Qed.

Lemma cycleGraph_ranked : ranked cycleGraph sampleRank 2.
Proof. apply ranked_check; [apply sampleRank_le|]. vm_compute. reflexivity. Qed.

Lemma hasRelZLoop_reports_cycle_witness :
  exists fuel out,
    (forall fuel', fuel <= fuel' ->
       hasRelZLoop sampleUnassigned cycleGraph fuel' 0 = Finished (true, out)) /\
    onRelativeCycle cycleGraph out /\
    ((forall h node c,
         cycleGraph !! h = Some node -> (c, Relative) ∈ LayerHierarchy.mChildren node ->
         c = 1 \/ c = 2) ->
     out = 10%Z \/ out = 20%Z).
Proof.
  refine (proj1 (hasRelZLoop_reports_cycle sampleUnassigned cycleGraph sampleRank 2
                   0 1 2 _ _ (RequestedLayerState.mk 10 0) (RequestedLayerState.mk 20 0)
                   [(1, Detached)] cycleGraph_closed cycleGraph_ranked _ _ _ _ _ _ _)).
  - econstructor; [reflexivity| |constructor]. by left.
  - reflexivity.
  - reflexivity.
  - reflexivity.
  - reflexivity.
  - by left.
  - by left.
Defined.

(** On the sample graph the walk from the root writes 20: the relative root
    of node 2 is the first to be reached a second time. *)
Example hasRelZLoop_cycleGraph :
  hasRelZLoop sampleUnassigned cycleGraph 5 0 = Finished (true, 20%Z).
Proof. vm_compute. reflexivity. Qed.

Lemma cycleGraph_lookup_0 :
  cycleGraph !! 0 = Some (LayerHierarchy.mk None [(1, Detached); (2, Detached)] None None).
Proof. reflexivity. Qed.

Lemma relativeGraph_closed : closed sampleUnassigned relativeGraph.
Proof. apply closed_check. vm_compute. reflexivity. Qed.

Lemma relativeGraph_acyclic : acyclic relativeGraph sampleRank.
Proof. apply acyclic_check. vm_compute. reflexivity. Qed.

Lemma relativeGraph_uniqueIds : uniqueIds relativeGraph.
Proof.
  apply uniqueIds_check.
  apply (bool_decide_eq_true_1 (NoDup (allIds relativeGraph))).
  vm_compute. reflexivity.
Qed.

Lemma cycleGraph_lookup_1 :
  cycleGraph !! 1 = Some (LayerHierarchy.mk (Some (RequestedLayerState.mk 10 0))
                            [(2, Relative)] (Some 0) (Some 2)).
Proof. reflexivity. Qed.

Lemma cycleGraph_lookup_2 :
  cycleGraph !! 2 = Some (LayerHierarchy.mk (Some (RequestedLayerState.mk 20 0))
                            [(1, Relative)] (Some 0) (Some 1)).
Proof. reflexivity. Qed.


Lemma traversals_return_witness :
  exists fuel, forall fuel' s, fuel <= fuel' ->
    (exists p' s', traverse_from_root sampleUnassigned cycleGraph
                     (relZLoopVisitor sampleUnassigned) fuel' 0 s
                   = Finished (p', s')) /\
    (exists p' s', traverseInZOrder_from_root sampleUnassigned cycleGraph
                     (relZLoopVisitor sampleUnassigned) fuel' 0 s
                   = Finished (p', s')).
Proof.
  refine (traversals_return sampleUnassigned Z cycleGraph
            (relZLoopVisitor sampleUnassigned) sampleRank 2 0
            cycleGraph_closed cycleGraph_ranked _ _).
  - rewrite cycleGraph_lookup_0. eauto.
  - right. apply relZLoopVisitor_prunes.
Defined.



(** On the sample graph: [traverse] visits node 4 under node 1 and under
    node 2, [traverseInZOrder] under node 2 only. *)
Example relativeGraph_visits :
  traverse_from_root sampleUnassigned relativeGraph keyLogVisitor 4 0 []
  = Finished (ROOT_TRAVERSAL_ID sampleUnassigned,
              [(0, Attached); (1, Attached); (4, Detached); (2, Attached);
               (4, Relative); (3, Attached)]) /\
  traverseInZOrder_from_root sampleUnassigned relativeGraph keyLogVisitor 4 0 []
  = Finished (ROOT_TRAVERSAL_ID sampleUnassigned,
              [(0, Attached); (2, Attached); (4, Relative); (3, Attached);
               (1, Attached)]).
Proof. split; vm_compute; reflexivity. Qed.
(** The layer of node 4 has the structural parent 1 and the relative parent
    3; node 3 is itself visited at its structural and at its relative
    position, and node 4 under it each time. *)
Lemma visits_per_parent_witness :
  exists (q' : TraversalPath.t) (log : list (nat * Variant)),
    traverse nestedGraph keyLogVisitor 5 0 (ROOT_TRAVERSAL_ID sampleUnassigned) []
      = Finished (q', log) /\
    (visitsAs 4 Detached log = visitsOf 1 log /\
     visitsAs 4 Relative log = visitsOf 3 log /\
     visitsOf 4 log = visitsOf 1 log + visitsOf 3 log) /\
    visitsOf 1 log = 1 /\ visitsOf 3 log = 2.
Proof.
  destruct (traverse nestedGraph keyLogVisitor 5 0 (ROOT_TRAVERSAL_ID sampleUnassigned) [])
    as [[q' log]| |] eqn:H; [|vm_compute in H; discriminate..].
  exists q', log. split; [reflexivity|]. split.
  - refine (visits_per_parent nestedGraph 0 4 1 3 _ _ 5
              (ROOT_TRAVERSAL_ID sampleUnassigned) q' log false _ _ _ _ _ _ H).
    + lia.
    + reflexivity.
    + reflexivity.
    + discriminate.
    + discriminate.
    + apply incomingEdges_check. vm_compute. reflexivity.
  - vm_compute in H. injection H as <- <-. split; reflexivity.
Defined.
(** The children of the root of the sample graph, inserted with the z values
    3, 1 and 2, are visited in the order 1, 2, 3: node 2, then node 3, then
    node 1. *)
Lemma traverseInZOrder_visits_in_z_order_witness :
  (forall (fuel : nat) (p' : TraversalPath.t) (log : list (nat * TraversalPath.t)),
     traverseInZOrder relativeGraph (recordVisitor (fun _ _ => true)) fuel 0
       (ROOT_TRAVERSAL_ID sampleUnassigned) [] = Finished (p', log) ->
     exists sublogs,
       log = (0, ROOT_TRAVERSAL_ID sampleUnassigned) :: concat sublogs /\
       Forall2
         (fun e sub =>
            exists fuelc q q' rest,
              sub = (fst e, q) :: rest /\
              TraversalPath.variant q = snd e /\
              childId relativeGraph (fst e) = Finished (TraversalPath.id q) /\
              traverseInZOrder relativeGraph (recordVisitor (fun _ _ => true))
                fuelc (fst e) q [] = Finished (q', sub))
         [(2, Attached); (3, Attached); (1, Attached)] sublogs) /\
  (exists fuel, forall fuel', fuel <= fuel' ->
     exists p' log,
       traverseInZOrder relativeGraph (recordVisitor (fun _ _ => true)) fuel' 0
         (ROOT_TRAVERSAL_ID sampleUnassigned) [] = Finished (p', log)) /\
  [(2, Attached); (3, Attached); (1, Attached)]
    ≡ₚ [(1, Attached); (2, Attached); (3, Attached)] /\
  StronglySorted (fun e e' => (childZ relativeGraph e <= childZ relativeGraph e')%Z)
    [(2, Attached); (3, Attached); (1, Attached)] /\
  (forall k : Z,
      filter (fun e => childZ relativeGraph e = k)
        [(2, Attached); (3, Attached); (1, Attached)]
      = filter (fun e => childZ relativeGraph e = k)
          [(1, Attached); (2, Attached); (3, Attached)]) /\
  (exists node',
      sortChildrenByZOrder relativeGraph 0 !! 0 = Some node' /\
      filter visible (LayerHierarchy.mChildren node')
      = [(2, Attached); (3, Attached); (1, Attached)]).
Proof.
  destruct (traverseInZOrder_visits_in_z_order sampleUnassigned relativeGraph
              (fun _ _ => true) 0
              (LayerHierarchy.mk None [(1, Attached); (2, Attached); (3, Attached)]
                 None None)
              (ROOT_TRAVERSAL_ID sampleUnassigned) eq_refl eq_refl)
    as (Hlog & Hret & Hrest).
  split; [exact Hlog|]. split; [|exact Hrest].
  exact (Hret sampleRank relativeGraph_closed relativeGraph_acyclic).
Defined.

(** The visits in full: node 4, the relative child of node 2, comes right
    after node 2. *)
Example traverseInZOrder_relativeGraph :
  traverseInZOrder relativeGraph keyLogVisitor 4 0
    (ROOT_TRAVERSAL_ID sampleUnassigned) []
  = Finished (ROOT_TRAVERSAL_ID sampleUnassigned,
              [(0, Attached); (2, Attached); (4, Relative); (3, Attached);
               (1, Attached)]).
Proof. vm_compute. reflexivity. Qed.

(** Equal z values: the children 2 and 4 (z 0) come before 1 and 3 (z 1),
    each pair in insertion order; the detached child 5 is not visited. *)
Example traverseInZOrder_ties :
  traverseInZOrder tieGraph keyLogVisitor 3 0 (ROOT_TRAVERSAL_ID sampleUnassigned) []
  = Finished (ROOT_TRAVERSAL_ID sampleUnassigned,
              [(0, Attached); (2, Attached); (4, Attached); (1, Attached);
               (3, Relative)]).
Proof. vm_compute. reflexivity. Qed.
(** * The further properties on the sample graphs *)

Lemma TraversalPath_eqb_equivalence_witness :
  TraversalPath_eqb (TraversalPath.mk 7 Detached [3%Z] [] 0)
                    (TraversalPath.mk 7 Attached [3%Z] [9; 9]%Z 9) = true.
Proof.
  apply (proj2 (proj2 TraversalPath_eqb_equivalence)
           _ (TraversalPath.mk 7 Relative [3%Z] [7%Z] 0) _); reflexivity.
Defined.

Lemma hasRelZLoop_sound_witness :
  (true = true <-> 20%Z <> sampleUnassigned) /\
  (true = false -> 20%Z = sampleUnassigned) /\
  (true = true -> onRelativeCycle cycleGraph 20).
Proof.
  apply (hasRelZLoop_sound sampleUnassigned cycleGraph 5 0 true 20).
  vm_compute. reflexivity.
Defined.

Lemma hasRelZLoop_acyclic_witness :
  hasRelZLoop sampleUnassigned relativeGraph 3 0 = Finished (false, sampleUnassigned).
Proof.
  apply (hasRelZLoop_acyclic sampleUnassigned relativeGraph sampleRank 0 3
           relativeGraph_closed relativeGraph_acyclic relativeGraph_uniqueIds).
  - eexists. reflexivity.
  - vm_compute. lia.
Defined.

(** Without distinct records the alarm can be false: the graph has no cycle,
    but the record with id 10 hangs, through a second node, below itself. *)
Example hasRelZLoop_copyGraph :
  hasRelZLoop sampleUnassigned copyGraph 5 0 = Finished (true, 10%Z).
Proof. vm_compute. reflexivity. Qed.

Lemma cycleGraph_route :
  Route cycleGraph 0 [(1, Detached); (2, Relative); (1, Relative); (2, Relative)] 2.
Proof.
  econstructor; [exact cycleGraph_lookup_0|by left|].
  econstructor; [exact cycleGraph_lookup_1|by left|].
  econstructor; [exact cycleGraph_lookup_2|by left|].
  econstructor; [exact cycleGraph_lookup_1|by left|].
  constructor.
Qed.

Lemma pushAlong_stacks_witness :
  TraversalPath.relativeRootIds
    (pushAlong cycleGraph (ROOT_TRAVERSAL_ID sampleUnassigned)
       [(1, Detached); (2, Relative); (1, Relative); (2, Relative)])
  = [] ++ [20; 10; 20]%Z.
Proof.
  exact (proj1 (pushAlong_stacks sampleUnassigned cycleGraph 0 2 _
                  (ROOT_TRAVERSAL_ID sampleUnassigned)
                  cycleGraph_closed cycleGraph_route)).
Defined.

Lemma pushAlong_flags_duplicates_witness :
  TraversalPath_hasRelZLoop sampleUnassigned
    (pushAlong cycleGraph (ROOT_TRAVERSAL_ID sampleUnassigned)
       [(1, Detached); (2, Relative); (1, Relative); (2, Relative)]) = true
  <-> ~ NoDup [20; 10; 20]%Z.
Proof.
  exact (pushAlong_flags_duplicates sampleUnassigned cycleGraph 0 2 _
           cycleGraph_closed cycleGraph_route).
Defined.

Lemma push_unassigned_id_unflagged_witness :
  TraversalPath_hasRelZLoop sampleUnassigned
    (snd (ScopedAddToTraversalPath_push
            (TraversalPath.mk 10 Relative [] [sampleUnassigned; 10%Z] 10)
            sampleUnassigned Relative)) = false /\
  ~ NoDup [sampleUnassigned; 10%Z; sampleUnassigned].
Proof.
  apply (push_unassigned_id_unflagged sampleUnassigned
           (TraversalPath.mk 10 Relative [] [sampleUnassigned; 10%Z] 10)).
  by left.
Defined.

Lemma sortChildrenByZOrder_frame_witness :
  sortChildrenByZOrder relativeGraph 9 = relativeGraph /\
  sortChildrenByZOrder relativeGraph 0 !! 1 = relativeGraph !! 1 /\
  sortChildrenByZOrder (sortChildrenByZOrder relativeGraph 0) 0
  = sortChildrenByZOrder relativeGraph 0.
Proof.
  destruct (sortChildrenByZOrder_frame relativeGraph 9) as (Hmissing & _).
  destruct (sortChildrenByZOrder_frame relativeGraph 0) as (_ & Hother & _ & Hidem).
  split; [apply Hmissing; reflexivity|].
  split; [apply Hother; lia|exact Hidem].
Defined.

Lemma sortChildrenByZOrder_sorted_noop_witness :
  sortChildrenByZOrder cycleGraph 0 = cycleGraph.
Proof.
  apply (sortChildrenByZOrder_sorted_noop cycleGraph 0 _ cycleGraph_lookup_0).
  repeat constructor; vm_compute; discriminate.
Defined.

Lemma visits_follow_routes_witness :
  exists es,
    Route relativeGraph 0 es 4 /\
    sameFrame (TraversalPath.mk 40 Relative [] [40%Z] sampleUnassigned)
      (pushAlong relativeGraph (ROOT_TRAVERSAL_ID sampleUnassigned) es) /\
    Forall (fun e => true = true -> snd e <> Detached) es.
Proof.
  assert (traverseInZOrder relativeGraph (recordVisitor (fun _ _ => true)) 4 0
            (ROOT_TRAVERSAL_ID sampleUnassigned) []
          = Finished (ROOT_TRAVERSAL_ID sampleUnassigned,
              [(0, ROOT_TRAVERSAL_ID sampleUnassigned);
               (2, TraversalPath.mk 20 Attached [] [] sampleUnassigned);
               (4, TraversalPath.mk 40 Relative [] [40%Z] sampleUnassigned);
               (3, TraversalPath.mk 30 Attached [] [] sampleUnassigned);
               (1, TraversalPath.mk 10 Attached [] [] sampleUnassigned)])) as H
    by (vm_compute; reflexivity).
  apply (visits_follow_routes relativeGraph _ true _ _ _ _ _ H 4
           (TraversalPath.mk 40 Relative [] [40%Z] sampleUnassigned)).
  do 2 right. left.
Defined.

Lemma routes_are_visited_witness :
  exists q,
    (4, q)
    ∈ [(0, ROOT_TRAVERSAL_ID sampleUnassigned);
       (1, TraversalPath.mk 10 Attached [] [] sampleUnassigned);
       (4, TraversalPath.mk 40 Detached [] [] sampleUnassigned);
       (2, TraversalPath.mk 20 Attached [] [] sampleUnassigned);
       (4, TraversalPath.mk 40 Relative [] [40%Z] sampleUnassigned);
       (3, TraversalPath.mk 30 Attached [] [] sampleUnassigned)] /\
    sameFrame q (pushAlong relativeGraph (ROOT_TRAVERSAL_ID sampleUnassigned)
                   [(1, Attached); (4, Detached)]).
Proof.
  apply (routes_are_visited relativeGraph false 4 0 4
           [(1, Attached); (4, Detached)]
           (ROOT_TRAVERSAL_ID sampleUnassigned) (ROOT_TRAVERSAL_ID sampleUnassigned)).
  - vm_compute. reflexivity.
  - econstructor; [reflexivity|by left|].
    econstructor; [reflexivity|by left|]. constructor.
  - repeat constructor; discriminate.
Defined.
